(** * Hawck keyboard daemon (hawck-inputd): passthrough set, run loop, hot-plug

    A shallow embedding of [src/KBDDaemon.cpp] (current revision, with the
    older revision of the CSV cell loop kept in [Older] for comparison) and
    of the [FSEvent] record of [src/FSWatcher.hpp].

    - [std::unordered_map<std::string, std::vector<int>*> key_sources] is a
      [gmap string (list Z)];
    - the set of [int] [passthrough_keys] is a [gset Z];
    - C++ exceptions are explicit results ([stoi_result], [option], [sum]);
    - the collaborators whose code is not part of the two files (realpath,
      the CSV reader, the keyboards, the socket, stat) are inputs of the
      functions that call them. *)

From Stdlib Require Import ZArith Ascii String List Lia.
From stdpp Require Import base gmap strings list fin_maps fin_sets.

Open Scope Z_scope.

Set Warnings "-clear-no-such-hyp".

(** ** [std::stoi] *)

Module Stoi.

Inductive stoi_result : Type :=
| StoiOk (i : Z)
| InvalidArgument
| OutOfRange.

Definition INT_MAX : Z := 2147483647.
Definition INT_MIN : Z := -2147483648.

Definition char_code (c : ascii) : Z := Z.of_nat (nat_of_ascii c).

(** [isspace] in the C locale: space, and \t \n \v \f \r. *)
Definition isspace (c : ascii) : bool :=
  (char_code c =? 32) || ((9 <=? char_code c) && (char_code c <=? 13)).

Definition digit_value (c : ascii) : option Z :=
  if (48 <=? char_code c) && (char_code c <=? 57)
  then Some (char_code c - 48) else None.

Fixpoint skip_space (s : string) : string :=
  match s with
  | String c s' => if isspace c then skip_space s' else s
  | EmptyString => s
  end.

(** The digit run of [strtol]: [any] records whether a digit was read;
    reading stops at the first character that is not a digit. *)
Fixpoint read_digits (s : string) (acc : Z) (any : bool) : option Z :=
  match s with
  | String c s' =>
      match digit_value c with
      | Some d => read_digits s' (acc * 10 + d) true
      | None => if any then Some acc else None
      end
  | EmptyString => if any then Some acc else None
  end.

Definition split_sign (s : string) : bool * string :=
  match s with
  | String c r =>
      if Ascii.eqb c "-"%char then (true, r)
      else if Ascii.eqb c "+"%char then (false, r)
      else (false, s)
  | EmptyString => (false, s)
  end.

(** [strtol(s, &end, 10)] with the value kept unbounded; [None] is
    "no conversion" ([end == s]). *)
Definition strtol10 (s : string) : option Z :=
  let '(neg, s2) := split_sign (skip_space s) in
  match read_digits s2 0 false with
  | Some v => Some (if neg then - v else v)
  | None => None
  end.

(** [std::stoi(s)]: [std::invalid_argument] when nothing converts,
    [std::out_of_range] when the value does not fit an [int]. *)
Definition stoi (s : string) : stoi_result :=
  match strtol10 s with
  | None => InvalidArgument
  | Some v =>
      if (INT_MIN <=? v) && (v <=? INT_MAX) then StoiOk v else OutOfRange
  end.

End Stoi.
Import Stoi.

(** ** File-system events ([FSWatcher.hpp]) and [struct stat] *)

Record stat : Type := {
  st_mode : Z;
  st_uid : Z;
  st_gid : Z
}.

Record FSEvent : Type := {
  path : string;
  mask : Z;
  stbuf : stat;
  added : bool
}.

(** <sys/stat.h> *)
Definition S_IRWXU : Z := 448.   (* 0700 *)
Definition S_IRWXG : Z := 56.    (* 0070 *)
Definition S_IRWXO : Z := 7.     (* 0007 *)
Definition S_IFMT : Z := 61440.  (* 0170000 *)
Definition S_IFCHR : Z := 8192.  (* 0020000 *)
Definition S_ISCHR (m : Z) : bool := Z.land m S_IFMT =? S_IFCHR.

(** <sys/inotify.h> *)
Definition IN_MODIFY : Z := 2.
Definition IN_CREATE : Z := 256.
Definition IN_DELETE_SELF : Z := 1024.

(** ** The passthrough set *)

(** Lines written to standard output by the passthrough functions. *)
Inductive LogLine : Type :=
| LogRM (p : string)                     (* "RM: %s" *)
| LogLOADED (p : string)                 (* "LOADED: %s" *)
| LogLoadError (what : string)           (* "loadPassthrough error: ..." *)
| LogOK (p : string)                     (* "OK: %s" *)
| LogPerm (perm uid : Z)                 (* "LOG: perm=%X; uid=%d" *)
| LogInvalidPerm (p : string).           (* "ERROR: Invalid permissions ..." *)

(** The members of [KBDDaemon] that the passthrough functions touch. *)
Record Passthrough : Type := {
  key_sources : gmap string (list Z);
  passthrough_keys : gset Z;
  keys_fsw : gset string;
  stdout : list LogLine
}.

Definition printf (l : LogLine) (d : Passthrough) : Passthrough :=
  {| key_sources := key_sources d;
     passthrough_keys := passthrough_keys d;
     keys_fsw := keys_fsw d;
     stdout := stdout d ++ [l] |}.

(** The state built by the constructor before [initPassthrough]. *)
Definition init : Passthrough :=
  {| key_sources := ∅; passthrough_keys := ∅; keys_fsw := ∅; stdout := [] |}.

(** [for (int code : *vec) passthrough_keys.erase(code);] *)
Definition erase_codes (vec : list Z) (keys : gset Z) : gset Z :=
  foldl (fun s code => s ∖ {[code]}) keys vec.

(** [for (int code : *vec) passthrough_keys.insert(code);] *)
Definition insert_codes (vec : list Z) (keys : gset Z) : gset Z :=
  foldl (fun s code => {[code]} ∪ s) keys vec.

Definition unloadPassthrough (p : string) (d : Passthrough) : Passthrough :=
  match key_sources d !! p with
  | Some vec =>
      let keys1 := erase_codes vec (passthrough_keys d) in
      let sources := delete p (key_sources d) in
      (* Re-add keys *)
      let keys2 := map_fold (fun _ vec' s => insert_codes vec' s) keys1 sources in
      {| key_sources := sources;
         passthrough_keys := keys2;
         keys_fsw := keys_fsw d;
         stdout := stdout d ++ [LogRM p] |}
  | None => d
  end.

(** What the file system answers during one call of [loadPassthrough]:
    [realpath] ([None] is a null result), and the cells of the [key_code]
    column as [CSV csv(path); csv.getColCells("key_code")] return them
    ([inl what] when either throws [CSV::CSVError]). *)
Record FileSystem : Type := {
  realpath : string → option string;
  getColCells_key_code : string → string + list string
}.

(** One turn of the loop over the cells: the set and [cells_i]. *)
Definition load_cell (acc : gset Z * list Z) (code_s : string) : gset Z * list Z :=
  match stoi code_s with
  | StoiOk i =>
      if 0 <=? i then ({[i]} ∪ acc.1, acc.2 ++ [i]) else acc
  | InvalidArgument | OutOfRange => acc   (* catch (std::exception) continue *)
  end.

Definition load_cells (cells : list string) (keys : gset Z) : gset Z * list Z :=
  foldl load_cell (keys, []) cells.

Definition loadPassthrough (fs : FileSystem) (rel_path : string)
    (d : Passthrough) : Passthrough :=
  match realpath fs rel_path with
  | None =>
      printf (LogLoadError
                ("Error in realpath() unable to get path for: " ++ rel_path)) d
  | Some p =>
      let d1 := unloadPassthrough p d in
      match getColCells_key_code fs p with
      | inl what => printf (LogLoadError what) d1
      | inr cells =>
          let r := load_cells cells (passthrough_keys d1) in
          {| key_sources := <[p := r.2]> (key_sources d1);
             passthrough_keys := r.1;
             keys_fsw := {[p]} ∪ keys_fsw d1;
             stdout := stdout d1 ++ [LogLOADED p] |}
      end
  end.

Definition perm_of (ev : FSEvent) : Z :=
  Z.land (st_mode (stbuf ev)) (Z.lor (Z.lor S_IRWXU S_IRWXG) S_IRWXO).

(** [loadPassthrough(FSEvent *ev)]; [uid] is the value of [getuid()]. *)
Definition loadPassthrough_ev (uid : Z) (fs : FileSystem) (ev : FSEvent)
    (d : Passthrough) : Passthrough :=
  let perm := perm_of ev in
  if (perm =? 420 (* 0644 *)) && (st_uid (stbuf ev) =? uid) then
    loadPassthrough fs (path ev)
      (printf (LogPerm perm uid) (printf (LogOK (path ev)) d))
  else
    printf (LogPerm perm uid) (printf (LogInvalidPerm (path ev)) d).

(** [initPassthrough]; [files] is what [keys_fsw.addFrom] returns. *)
Definition initPassthrough (uid : Z) (fs : FileSystem) (files : list FSEvent)
    (d : Passthrough) : Passthrough :=
  foldl (fun d file => loadPassthrough_ev uid fs file d) d files.

(** The callback given to [keys_fsw.begin] in [run]. *)
Definition keys_fsw_callback (uid : Z) (fs : FileSystem) (ev : FSEvent)
    (d : Passthrough) : Passthrough :=
  if negb (Z.land (mask ev) IN_DELETE_SELF =? 0) then
    unloadPassthrough (path ev) d
  else if negb (Z.land (mask ev) (Z.lor IN_CREATE IN_MODIFY) =? 0) then
    loadPassthrough_ev uid fs ev d
  else d.

(** [passthrough_keys.count(code)] as a boolean. *)
Definition contains (d : Passthrough) (code : Z) : bool :=
  bool_decide (code ∈ passthrough_keys d).

(** Calls that change the passthrough set, each with the file system and
    uid it sees. *)
Inductive Call : Type :=
| CallLoad (fs : FileSystem) (rel_path : string)
| CallLoadEv (uid : Z) (fs : FileSystem) (ev : FSEvent)
| CallUnload (p : string)
| CallFsw (uid : Z) (fs : FileSystem) (ev : FSEvent).

Definition call (d : Passthrough) (c : Call) : Passthrough :=
  match c with
  | CallLoad fs rel_path => loadPassthrough fs rel_path d
  | CallLoadEv uid fs ev => loadPassthrough_ev uid fs ev d
  | CallUnload p => unloadPassthrough p d
  | CallFsw uid fs ev => keys_fsw_callback uid fs ev d
  end.

Definition calls (cs : list Call) (d : Passthrough) : Passthrough :=
  foldl call d cs.

(** A file system in which every listed path is canonical and holds the
    given [key_code] cells ([None]: the CSV does not parse). *)
Definition fs_of (files : list (string * option (list string))) : FileSystem :=
  {| realpath := fun p =>
       if bool_decide (p ∈ files.*1) then Some p else None;
     getColCells_key_code := fun p =>
       match list_to_map (M := gmap string (option (list string))) files !! p with
       | Some (Some cells) => inr cells
       | _ => inl "CSV error"%string
       end |}.

(** ** Keyboards, the virtual output device and the socket *)

Record input_event : Type := {
  ev_time : Z;
  ev_type : Z;
  code : Z;
  value : Z
}.

Record KBDAction : Type := {
  ev : input_event;
  done : Z
}.

(** Modelled from the spec: the declaration of [KBDState] (Keyboard.hpp) is
    not among the sources; the spec names the states INITIAL, LOCKED and
    DISABLED, and the code names [KBDState::LOCKED]. *)
Inductive KBDState : Type := INITIAL | LOCKED | DISABLED.

Definition is_LOCKED (s : KBDState) : bool :=
  match s with LOCKED => true | _ => false end.

Record Keyboard : Type := {
  name : string;
  dev_path : string;
  state : KBDState
}.

(** Modelled from the spec: [Keyboard::disable], [Keyboard::lock] and
    [Keyboard::reset] (Keyboard.cpp) are not among the sources; the spec's
    state machine is INITIAL --lock--> LOCKED --read error--> DISABLED
    --reset+lock--> LOCKED. *)
Definition disable (k : Keyboard) : Keyboard :=
  {| name := name k; dev_path := dev_path k; state := DISABLED |}.
Definition lock (k : Keyboard) : Keyboard :=
  {| name := name k; dev_path := dev_path k; state := LOCKED |}.
Definition reset (p : string) (k : Keyboard) : Keyboard :=
  {| name := name k; dev_path := p; state := state k |}.
Definition isDisabled (k : Keyboard) : bool :=
  match state k with DISABLED => true | _ => false end.

(** Modelled from the spec: [UDevice] (UDevice.cpp) is not among the
    sources; [emit] queues one event, [flush] commits the queued events to
    the virtual device and clears the queue. *)
Record UDevice : Type := {
  queued : list input_event;
  written : list input_event;
  flushes : nat
}.

Definition emit (e : input_event) (u : UDevice) : UDevice :=
  {| queued := queued u ++ [e]; written := written u; flushes := flushes u |}.
Definition flush (u : UDevice) : UDevice :=
  {| queued := []; written := written u ++ queued u; flushes := S (flushes u) |}.

(** The socket to the macro daemon as the run loop sees it: what was sent,
    and whether [close] was called. *)
Record UNIXSocket : Type := {
  sent : list KBDAction;
  closed : bool
}.

(** The state of [KBDDaemon::run]. [kbds] owns the keyboards;
    [available_kbds] and [pulled_kbds] hold pointers, here indices into
    [kbds], so that [kbd->disable()] is seen through every alias. [action]
    and [errors] are the locals declared before the loop. *)
Record RunState : Type := {
  kbds : list Keyboard;
  available_kbds : list nat;
  pulled_kbds : list nat;
  action : KBDAction;
  errors : Z;
  udev : UDevice;
  kbd_com : UNIXSocket;
  syslog : list string
}.

Definition set_kbds f (st : RunState) : RunState :=
  {| kbds := f (kbds st); available_kbds := available_kbds st;
     pulled_kbds := pulled_kbds st; action := action st; errors := errors st;
     udev := udev st; kbd_com := kbd_com st; syslog := syslog st |}.
Definition set_available_kbds f (st : RunState) : RunState :=
  {| kbds := kbds st; available_kbds := f (available_kbds st);
     pulled_kbds := pulled_kbds st; action := action st; errors := errors st;
     udev := udev st; kbd_com := kbd_com st; syslog := syslog st |}.
Definition set_pulled_kbds f (st : RunState) : RunState :=
  {| kbds := kbds st; available_kbds := available_kbds st;
     pulled_kbds := f (pulled_kbds st); action := action st; errors := errors st;
     udev := udev st; kbd_com := kbd_com st; syslog := syslog st |}.
Definition set_action f (st : RunState) : RunState :=
  {| kbds := kbds st; available_kbds := available_kbds st;
     pulled_kbds := pulled_kbds st; action := f (action st); errors := errors st;
     udev := udev st; kbd_com := kbd_com st; syslog := syslog st |}.
Definition set_errors f (st : RunState) : RunState :=
  {| kbds := kbds st; available_kbds := available_kbds st;
     pulled_kbds := pulled_kbds st; action := action st; errors := f (errors st);
     udev := udev st; kbd_com := kbd_com st; syslog := syslog st |}.
Definition set_udev f (st : RunState) : RunState :=
  {| kbds := kbds st; available_kbds := available_kbds st;
     pulled_kbds := pulled_kbds st; action := action st; errors := errors st;
     udev := f (udev st); kbd_com := kbd_com st; syslog := syslog st |}.
Definition set_kbd_com f (st : RunState) : RunState :=
  {| kbds := kbds st; available_kbds := available_kbds st;
     pulled_kbds := pulled_kbds st; action := action st; errors := errors st;
     udev := udev st; kbd_com := f (kbd_com st); syslog := syslog st |}.
Definition set_syslog f (st : RunState) : RunState :=
  {| kbds := kbds st; available_kbds := available_kbds st;
     pulled_kbds := pulled_kbds st; action := action st; errors := errors st;
     udev := udev st; kbd_com := kbd_com st; syslog := f (syslog st) |}.

(** [updateAvailableKBDs] *)
Definition updateAvailableKBDs (st : RunState) : RunState :=
  set_available_kbds
    (fun _ => filter (fun i => isDisabled <$> kbds st !! i = Some false)
                (seq 0 (length (kbds st)))) st.

(** ** One turn of the main loop of [run] *)

(** What the outside does during one turn: the result of [kbdMultiplex]
    and, when a keyboard is readable, of [kbd->get] ([None]: it throws
    [KeyboardError]); whether [kbd_com.send] succeeds; and the results of
    the successive [kbd_com.recv] calls ([None]: [SocketError]). A failed
    [recv] is taken to leave [action] as it was. *)
Inductive Polled : Type :=
| Timeout                                      (* idx == -1 *)
| Readable (idx : nat) (got : option input_event).

Record Turn : Type := {
  polled : Polled;
  send_ok : bool;
  recvs : list (option KBDAction)
}.

Inductive Outcome : Type :=
| Running (st : RunState)   (* the turn ended: [continue] or end of body *)
| Aborted (st : RunState)   (* [abort()] *)
| Blocked (st : RunState)   (* [recv] never returns: no reply left *)
| Undefined.                (* [kbds[idx]] outside the vector *)

Definition MAX_ERRORS : Z := 30.

(** The end of the loop body: [udev.emit(&action.ev); udev.flush();] *)
Definition emit_key (st : RunState) : RunState :=
  set_udev (fun u => flush (emit (ev (action st)) u)) st.

(** [catch (SocketError &e)]: [errors++ > MAX_ERRORS] compares the value
    before the increment. *)
Definition on_SocketError (st : RunState) : Outcome :=
  let old := errors st in
  let st1 := set_errors (fun e => e + 1) st in
  if old >? MAX_ERRORS then
    Aborted (set_syslog (fun l => l ++ ["Unable to communicate with MacroD"%string])
               (set_kbd_com (fun s => {| sent := sent s; closed := true |}) st1))
  else
    (* On error control flow continues on to udev.emit() *)
    Running (emit_key st1).

(** The inner [for (;;)] receiving the keys to emit from the macro daemon. *)
Fixpoint recv_loop (rs : list (option KBDAction)) (st : RunState) : Outcome :=
  match rs with
  | [] => Blocked st
  | None :: _ => on_SocketError st
  | Some a :: rs' =>
      let st1 := set_action (fun _ => a) st in
      if negb (done a =? 0) then
        (* Flush received keys and continue on. *)
        Running (set_errors (fun _ => 0) (set_udev flush st1))
      else
        recv_loop rs' (set_udev (emit (ev a)) st1)
  end.

(** From [if (!had_key) continue;] on. *)
Definition handle_key (d : Passthrough) (t : Turn) (st : RunState) : Outcome :=
  let is_passthrough := contains d (code (ev (action st))) in
  if is_passthrough then
    if send_ok t then
      recv_loop (recvs t)
        (set_kbd_com (fun s => {| sent := sent s ++ [action st]; closed := closed s |}) st)
    else on_SocketError st
  else Running (emit_key st).

(** [available_kbds.erase(find(...))] *)
Fixpoint erase_first (k : nat) (l : list nat) : list nat :=
  match l with
  | [] => []
  | x :: l' => if Nat.eqb x k then l' else x :: erase_first k l'
  end.

(** [catch (const KeyboardError &e)] *)
Definition on_KeyboardError (k : nat) (st : RunState) : RunState :=
  set_pulled_kbds (fun l => l ++ [k])
    (set_available_kbds (erase_first k)
       (set_kbds (alter disable k)
          (set_syslog (fun l => l ++ ["Read error on keyboard, assumed to be removed"%string]) st))).

Definition iteration (d : Passthrough) (t : Turn) (st : RunState) : Outcome :=
  (* had_key = false; action.done = 0; *)
  let st0 := set_action (fun a => {| ev := ev a; done := 0 |}) st in
  match polled t with
  | Timeout => Running st0
  | Readable idx got =>
      match available_kbds st0 !! idx with
      | None => Undefined
      | Some k =>
          match got with
          | None => Running (on_KeyboardError k st0)
          | Some e =>
              let st1 := set_action (fun a => {| ev := e; done := done a |}) st0 in
              (* Throw away the key if the keyboard isn't locked yet. *)
              match kbds st1 !! k with
              | None => Undefined
              | Some kb =>
                  if is_LOCKED (state kb) then handle_key d t st1
                  else Running st1
              end
          end
      end
  end.

(** Successive turns of the loop; the passthrough set each turn sees is
    part of the turn, since the watcher thread may change it in between. *)
Fixpoint run (ts : list (Passthrough * Turn)) (st : RunState) : Outcome :=
  match ts with
  | [] => Running st
  | (d, t) :: ts' =>
      match iteration d t st with
      | Running st' => run ts' st'
      | o => o
      end
  end.

(** ** The hot-plug callback on /dev/input *)

Definition FSW_MAX_WAIT_PERMISSIONS_US : Z := 5 * 1000000.
Definition wait_inc_us : Z := 100.

Inductive Waited : Type :=
| NotCharDevice                       (* "Not a character device" *)
| GaveUp (calls : nat)                (* the cap was passed: skip this file *)
| LoopLeft (wait_time : Z) (calls : nat).   (* the do-while condition failed *)

(** The do-while of the callback. [stat_at n] is what the [n]-th call of
    [stat(ev.path)] of this callback returns ([None]: -1); [ev_mode] is
    [ev.stbuf.st_mode]; [n] counts the calls made so far. *)
Fixpoint wait_permissions (fuel : nat) (stat_at : nat → option stat)
    (ev_mode input_gid : Z) (n : nat) (wait_time : Z) : option Waited :=
  match fuel with
  | O => None
  | S fuel' =>
      (* usleep(wait_inc_us); ret = stat(ev.path.c_str(), &stbuf); *)
      let ret := stat_at n in
      if bool_decide (is_Some ret) && negb (S_ISCHR ev_mode) then
        Some NotCharDevice
      else
        let wait_time' := wait_time + wait_inc_us in
        if wait_time' >? FSW_MAX_WAIT_PERMISSIONS_US then Some (GaveUp (S n))
        else
          let again :=
            match ret with
            | None => false
            | Some sb =>
                let grp_perm := Z.land (st_mode sb) S_IRWXG in
                negb (negb (Z.land 4 grp_perm =? 0) && negb (Z.land grp_perm 2 =? 0))
                && negb (st_gid sb =? input_gid)
            end in
          if again
          then wait_permissions fuel' stat_at ev_mode input_gid (S n) wait_time'
          else Some (LoopLeft wait_time' (S n))
  end.

(** Enough turns for the cap: one more than [cap / increment]. *)
Definition wait_fuel : nat :=
  Z.to_nat (FSW_MAX_WAIT_PERMISSIONS_US / wait_inc_us + 1).

(** What the callback did, in order. *)
Inductive HotplugStep : Type :=
| StepWaited (kbd : nat) (wait_time : Z)
| StepIsMe (kbd : nat) (me : bool)
| StepPluggedIn (kbd : nat)
| StepNotCharDevice
| StepGaveUp.

(** The [for] over [pulled_kbds]; [isMe k p] is [kbds[k]->isMe(p)]. *)
Fixpoint hotplug_loop (stat_at : nat → option stat) (isMe : nat → string → bool)
    (input_gid : Z) (e : FSEvent) (its : list nat) (n : nat)
    (st : RunState) : RunState * list HotplugStep :=
  match its with
  | [] => (st, [])
  | kbd :: its' =>
      match wait_permissions wait_fuel stat_at (st_mode (stbuf e)) input_gid n 0 with
      | None => (st, [])
      | Some NotCharDevice => (st, [StepNotCharDevice])
      | Some (GaveUp _) =>
          (set_syslog (fun l => l ++ ["Could not aquire permissions rw with group input"%string]) st,
           [StepGaveUp])
      | Some (LoopLeft wait_time n') =>
          if isMe kbd (path e) then
            (set_pulled_kbds (erase_first kbd)
               (set_available_kbds (fun l => l ++ [kbd])
                  (set_kbds (alter (fun k => lock (reset (path e) k)) kbd)
                     (set_syslog (fun l => l ++ ["Keyboard was plugged in"%string]) st))),
             [StepWaited kbd wait_time; StepIsMe kbd true; StepPluggedIn kbd])
          else
            let r := hotplug_loop stat_at isMe input_gid e its' n' st in
            (r.1, StepWaited kbd wait_time :: StepIsMe kbd false :: r.2)
      end
  end.

(** The callback given to [input_fsw.begin] in [run]. *)
Definition input_fsw_callback (stat_at : nat → option stat)
    (isMe : nat → string → bool) (input_gid : Z) (e : FSEvent)
    (st : RunState) : RunState * list HotplugStep :=
  (* Don't react to the directory itself. *)
  if String.eqb (path e) "/dev/input" then (st, [])
  else hotplug_loop stat_at isMe input_gid e (pulled_kbds st) 0 st.

(** ** The cell loop of the older revision

    In the older revision of [loadPassthrough] the call of [stoi] is not
    guarded: [std::invalid_argument] and [std::out_of_range] leave the loop
    and the function, after the cells before the bad one were inserted in
    the set and before [key_sources[path]] is assigned. *)

Module Older.

(** [None] in the second component: an exception left the loop. *)
Fixpoint load_cells (cells : list string) (keys : gset Z) (cells_i : list Z)
    : gset Z * option (list Z) :=
  match cells with
  | [] => (keys, Some cells_i)
  | code_s :: cells' =>
      match stoi code_s with
      | StoiOk i =>
          if 0 <=? i then load_cells cells' ({[i]} ∪ keys) (cells_i ++ [i])
          else load_cells cells' keys cells_i
      | InvalidArgument | OutOfRange => (keys, None)
      end
  end.

Definition loadPassthrough (fs : FileSystem) (rel_path : string)
    (d : Passthrough) : Passthrough :=
  match realpath fs rel_path with
  | None => d
  | Some p =>
      let d1 := unloadPassthrough p d in
      match getColCells_key_code fs p with
      | inl _ => d1
      | inr cells =>
          match load_cells cells (passthrough_keys d1) [] with
          | (keys, Some cells_i) =>
              {| key_sources := <[p := cells_i]> (key_sources d1);
                 passthrough_keys := keys;
                 keys_fsw := {[p]} ∪ keys_fsw d1;
                 stdout := stdout d1 ++ [LogLOADED p] |}
          | (keys, None) =>
              {| key_sources := key_sources d1;
                 passthrough_keys := keys;
                 keys_fsw := keys_fsw d1;
                 stdout := stdout d1 |}
          end
      end
  end.

End Older.

(** ** Specification-side notions *)

(** The code a cell contributes: the value [stoi] gives when it is not
    negative. *)
Definition cell_code (code_s : string) : option Z :=
  match stoi code_s with
  | StoiOk i => if 0 <=? i then Some i else None
  | InvalidArgument | OutOfRange => None
  end.

Definition cell_codes (cells : list string) : list Z := omap cell_code cells.

(** Some loaded file contributed [c]. *)
Definition contributed (d : Passthrough) (c : Z) : Prop :=
  ∃ p vec, key_sources d !! p = Some vec ∧ c ∈ vec.

(** Invariant I1: the set is the union of the loaded files' codes. *)
Definition union_inv (d : Passthrough) : Prop :=
  ∀ c, c ∈ passthrough_keys d ↔ contributed d c.

(** No loaded file holds a negative code. *)
Definition nonneg_inv (d : Passthrough) : Prop :=
  ∀ p vec c, key_sources d !! p = Some vec → c ∈ vec → 0 ≤ c.

(** The parts of the state that make up the passthrough set. *)
Definition same_set (d1 d2 : Passthrough) : Prop :=
  key_sources d1 = key_sources d2 ∧ passthrough_keys d1 = passthrough_keys d2.

(** The permission gate of [loadPassthrough] on an [FSEvent] lets [e] through. *)
Definition perm_ok (uid : Z) (e : FSEvent) : Prop :=
  perm_of e = 420 ∧ st_uid (stbuf e) = uid.

(** C4 as the claim states it: a load whose CSV fails to parse keeps the
    path's prior contribution. *)
Definition C4_as_stated : Prop :=
  ∀ (fs : FileSystem) (rel_path p what : string) (d : Passthrough),
    realpath fs rel_path = Some p →
    getColCells_key_code fs p = inl what →
    key_sources (loadPassthrough fs rel_path d) !! p = key_sources d !! p
    ∧ passthrough_keys (loadPassthrough fs rel_path d) = passthrough_keys d.

(** ** Fixtures *)

(** Two key files, as in the overlap scenario: A lists 30, B lists 30, 31. *)
Definition fs_AB : FileSystem :=
  fs_of [("/k/A"%string, Some ["30"%string]);
         ("/k/B"%string, Some ["30"; "31"]%string)].

(** The same directory after A was overwritten with something that is not
    a CSV. *)
Definition fs_A_broken : FileSystem :=
  fs_of [("/k/A"%string, None); ("/k/B"%string, Some ["30"; "31"]%string)].

(** A key file with a header-like cell, a negative cell and a blank one. *)
Definition fs_mixed : FileSystem :=
  fs_of [("/k/M"%string, Some ["30"; "key"; "-4"; ""; "31"]%string)].

Definition loaded_A : Passthrough := calls [CallLoad fs_AB "/k/A"] init.

(** A regular file, mode 0666, owned by uid 0. *)
Definition ev_world_writable : FSEvent :=
  {| path := "/k/A"; mask := IN_MODIFY;
     stbuf := {| st_mode := 33206; st_uid := 0; st_gid := 0 |};
     added := false |}.

(** [udev.emit] of each event of a list, in order. *)
Definition emit_all (es : list input_event) (u : UDevice) : UDevice :=
  foldl (fun u e => emit e u) u es.

(** A run state with [action] blanked, and an outcome seen without it:
    [action] is a scratch buffer, everything else is observable. *)
Definition no_action : KBDAction :=
  {| ev := {| ev_time := 0; ev_type := 0; code := 0; value := 0 |}; done := 0 |}.
Definition forget_action (st : RunState) : RunState :=
  set_action (fun _ => no_action) st.
Definition observe (o : Outcome) : Outcome :=
  match o with
  | Running st => Running (forget_action st)
  | Aborted st => Aborted (forget_action st)
  | Blocked st => Blocked (forget_action st)
  | Undefined => Undefined
  end.

(** Press of key 30 and of key 31 ([EV_KEY] is 1). *)
Definition key30 : input_event :=
  {| ev_time := 0; ev_type := 1; code := 30; value := 1 |}.
Definition key31 : input_event :=
  {| ev_time := 0; ev_type := 1; code := 31; value := 1 |}.

Definition run_state (k : Keyboard) (avail pulled : list nat) : RunState :=
  {| kbds := [k]; available_kbds := avail; pulled_kbds := pulled;
     action := no_action; errors := 0;
     udev := {| queued := []; written := []; flushes := 0 |};
     kbd_com := {| sent := []; closed := false |};
     syslog := [] |}.

(** One keyboard, grabbed and polled. *)
Definition st_locked : RunState :=
  run_state {| name := "kbd"; dev_path := "/dev/input/event3"; state := LOCKED |}
    [0%nat] [].

(** One keyboard, polled but not grabbed yet. *)
Definition st_initial : RunState :=
  run_state {| name := "kbd"; dev_path := "/dev/input/event3"; state := INITIAL |}
    [0%nat] [].

(** One keyboard, read-failed earlier and waiting for a hot-plug. *)
Definition st_pulled : RunState :=
  run_state {| name := "kbd"; dev_path := "/dev/input/event3"; state := DISABLED |}
    [] [0%nat].

(** Key 30 is read; the macro daemon answers with key 31 and then the
    socket fails. *)
Definition turn_fail_after_reply : Turn :=
  {| polled := Readable 0 (Some key30); send_ok := true;
     recvs := [Some {| ev := key31; done := 0 |}; None] |}.

(** Key 30 is read; [send] fails. *)
Definition turn_send_fails : Turn :=
  {| polled := Readable 0 (Some key30); send_ok := false; recvs := [] |}.

(** Key 30 is read; the macro daemon echoes it and says done. *)
Definition turn_echo : Turn :=
  {| polled := Readable 0 (Some key30); send_ok := true;
     recvs := [Some {| ev := key30; done := 0 |}; Some {| ev := key30; done := 1 |}] |}.

(** /dev/input/event7 as a character device, root:input, mode 0600: the
    group is right, the group bits are not set (and never will be). *)
Definition input_gid_ex : Z := 104.
Definition stat_root_input_0600 : nat → option stat :=
  fun _ => Some {| st_mode := 8576; st_uid := 0; st_gid := input_gid_ex |}.
Definition ev_event7 : FSEvent :=
  {| path := "/dev/input/event7"; mask := IN_CREATE;
     stbuf := {| st_mode := 8576; st_uid := 0; st_gid := 0 |};
     added := false |}.

(** ** Further invariants and fixtures *)

(** Every code recorded for a loaded file satisfies [P]. *)
Definition codes_inv (P : Z → Prop) (d : Passthrough) : Prop :=
  ∀ p vec c, key_sources d !! p = Some vec → c ∈ vec → P c.

(** [keys_fsw.add] was called on every path that has an entry. *)
Definition watched_inv (d : Passthrough) : Prop :=
  ∀ p, is_Some (key_sources d !! p) → p ∈ keys_fsw d.

#[global] Instance KBDState_eq_dec : EqDecision KBDState.
Proof. solve_decision. Defined.

(** The keyboard buckets of [run]: no pointer is held twice, every pointer
    is one into [kbds], and what sits in [pulled_kbds] is disabled. *)
Definition registry_inv (st : RunState) : Prop :=
  NoDup (available_kbds st ++ pulled_kbds st)
  ∧ Forall (fun k => is_Some (kbds st !! k))
      (available_kbds st ++ pulled_kbds st)
  ∧ Forall (fun k => state <$> kbds st !! k = Some DISABLED) (pulled_kbds st).

(** Two run states hold the same keyboards in the same buckets. *)
Definition same_registry (st st' : RunState) : Prop :=
  kbds st' = kbds st
  ∧ available_kbds st' = available_kbds st
  ∧ pulled_kbds st' = pulled_kbds st.

(** The hot-plug callback has handed keyboard [kbd] the device [p]. *)
Definition rebound (p : string) (kbd : nat) (st st' : RunState) : Prop :=
  kbds st' = alter (fun k => lock (reset p k)) kbd (kbds st)
  ∧ available_kbds st' = available_kbds st ++ [kbd]
  ∧ pulled_kbds st' = erase_first kbd (pulled_kbds st).

(** The budget as [run] keeps it between turns. *)
Definition errors_in_budget (st : RunState) : Prop :=
  0 ≤ errors st ≤ MAX_ERRORS + 1.

(** A regular file, mode 0644, owned by uid 0: it passes the gate. *)
Definition ev_A_0644 : FSEvent :=
  {| path := "/k/A"; mask := IN_MODIFY;
     stbuf := {| st_mode := 33188; st_uid := 0; st_gid := 0 |};
     added := false |}.

Definition loaded_AB : Passthrough :=
  calls [CallLoad fs_AB "/k/A"; CallLoad fs_AB "/k/B"] init.

(** Key 31 is read; nothing is asked of the socket. *)
Definition turn_key31 : Turn :=
  {| polled := Readable 0 (Some key31); send_ok := true; recvs := [] |}.

(** The read of the polled keyboard fails. *)
Definition turn_read_error : Turn :=
  {| polled := Readable 0 None; send_ok := true; recvs := [] |}.

Example stoi_30 : stoi "30" = StoiOk 30.
Proof. reflexivity. Qed.
Example stoi_trailing : stoi " +12abc" = StoiOk 12.
Proof. reflexivity. Qed.
Example stoi_neg : stoi "-5" = StoiOk (-5).
Proof. reflexivity. Qed.
Example stoi_header : stoi "key_code" = InvalidArgument.
Proof. reflexivity. Qed.
Example stoi_big : stoi "2147483648" = OutOfRange.
Proof. reflexivity. Qed.

Example scenario4 :
  let fs := fs_of [("/k/A"%string, Some ["30"%string]); ("/k/B"%string, Some ["30"; "31"]%string)] in
  let d := calls [CallLoad fs "/k/A"; CallLoad fs "/k/B"; CallUnload "/k/B"] init in
  contains d 30 = true ∧ contains d 31 = false.
Proof. vm_compute. split; reflexivity. Qed.

(** The older revision on a file with a cell that is not a number: the
    load is abandoned at that cell, 30 is in the set and no file accounts
    for it. *)
Example older_revision_aborts :
  let d := Older.loadPassthrough fs_mixed "/k/M" init in
  key_sources d !! "/k/M"%string = None ∧ contains d 30 = true
  ∧ contains d 31 = false.
Proof. vm_compute. repeat split. Qed.

Example initPassthrough_gate :
  let d := initPassthrough 0 fs_AB [ev_world_writable] init in
  contains d 30 = false.
Proof. vm_compute. reflexivity. Qed.

(** ** The passthrough set: set algebra of the loops *)

Lemma elem_of_erase_codes (vec : list Z) (keys : gset Z) (c : Z) :
  c ∈ erase_codes vec keys ↔ c ∈ keys ∧ c ∉ vec.
Proof.
  unfold erase_codes. revert keys.
  induction vec as [|x vec IH]; intros keys; simpl.
  - set_solver.
  - rewrite IH. set_solver.
Qed.

Lemma elem_of_insert_codes (vec : list Z) (keys : gset Z) (c : Z) :
  c ∈ insert_codes vec keys ↔ c ∈ keys ∨ c ∈ vec.
Proof.
  unfold insert_codes. revert keys.
  induction vec as [|x vec IH]; intros keys; simpl.
  - set_solver.
  - rewrite IH. set_solver.
Qed.

Lemma elem_of_readd (keys : gset Z) (m : gmap string (list Z)) (c : Z) :
  c ∈ map_fold (fun _ vec s => insert_codes vec s) keys m
  ↔ c ∈ keys ∨ ∃ p vec, m !! p = Some vec ∧ c ∈ vec.
Proof.
  revert m.
  apply (map_fold_weak_ind
           (fun r m => c ∈ r ↔ c ∈ keys ∨ ∃ p vec, m !! p = Some vec ∧ c ∈ vec)).
  - split; [auto| ]. intros [?|(p & vec & H & _)]; [done| ].
    by rewrite lookup_empty in H.
  - intros i x m r Hi IH. rewrite elem_of_insert_codes, IH. split.
    + intros [[?|(p & vec & Hp & Hc)]|Hx]; [by left| | ].
      * right. exists p, vec. split; [|done].
        rewrite lookup_insert_ne; [done| ]. intros ->. congruence.
      * right. exists i, x. by rewrite lookup_insert_eq.
    + intros [?|(p & vec & Hp & Hc)]; [by left; left| ].
      destruct (decide (i = p)) as [->|Hne].
      * rewrite lookup_insert_eq in Hp. right. congruence.
      * rewrite lookup_insert_ne in Hp by done. left; right. eauto.
Qed.

Lemma load_cell_cell_code (keys : gset Z) (acc : list Z) (s : string) :
  load_cell (keys, acc) s
  = match cell_code s with
    | Some i => ({[i]} ∪ keys, acc ++ [i])
    | None => (keys, acc)
    end.
Proof.
  unfold load_cell, cell_code. destruct (stoi s) as [i| |]; [|done..].
  by destruct (0 <=? i).
Qed.

Lemma load_cells_app (cells : list string) (keys : gset Z) (acc : list Z) :
  foldl load_cell (keys, acc) cells
  = (list_to_set (cell_codes cells) ∪ keys, acc ++ cell_codes cells).
Proof.
  revert keys acc. induction cells as [|s cells IH]; intros keys acc.
  - simpl. rewrite app_nil_r. f_equal. set_solver.
  - cbn [foldl]. rewrite load_cell_cell_code. unfold cell_codes in *.
    cbn [omap list_omap]. destruct (cell_code s) as [i|].
    + rewrite IH, <- app_assoc. simpl. f_equal. set_solver.
    + apply IH.
Qed.

Lemma load_cells_spec (cells : list string) (keys : gset Z) :
  load_cells cells keys = (list_to_set (cell_codes cells) ∪ keys, cell_codes cells).
Proof. unfold load_cells. by rewrite load_cells_app. Qed.

Lemma cell_codes_nonneg (cells : list string) (c : Z) :
  c ∈ cell_codes cells → 0 ≤ c.
Proof.
  unfold cell_codes. rewrite list_elem_of_omap. intros (s & _ & Hs).
  unfold cell_code in Hs. destruct (stoi s); try done.
  destruct (0 <=? i) eqn:E; [|done]. injection Hs as <-. lia.
Qed.

Lemma cell_codes_mid_ok (l1 : list string) (s : string) (l2 : list string) (i : Z) :
  stoi s = StoiOk i → 0 ≤ i →
  cell_codes (l1 ++ s :: l2) = cell_codes l1 ++ i :: cell_codes l2.
Proof.
  intros Hs Hi. unfold cell_codes. rewrite omap_app. f_equal.
  cbn [omap list_omap]. unfold cell_code at 1. rewrite Hs.
  by destruct (Z.leb_spec 0 i); [ |lia].
Qed.

Lemma cell_codes_mid_throw (l1 : list string) (s : string) (l2 : list string) :
  stoi s = InvalidArgument ∨ stoi s = OutOfRange →
  cell_codes (l1 ++ s :: l2) = cell_codes l1 ++ cell_codes l2.
Proof.
  intros Hs. unfold cell_codes. rewrite omap_app. f_equal.
  cbn [omap list_omap]. unfold cell_code at 1. by destruct Hs as [-> | ->].
Qed.

(** ** The passthrough set: what the functions do to the state *)

Lemma unload_key_sources (p : string) (d : Passthrough) :
  key_sources (unloadPassthrough p d) = delete p (key_sources d).
Proof.
  unfold unloadPassthrough. destruct (key_sources d !! p) eqn:E; [done| ].
  by rewrite delete_id.
Qed.

Lemma unload_keys_fsw (p : string) (d : Passthrough) :
  keys_fsw (unloadPassthrough p d) = keys_fsw d.
Proof. unfold unloadPassthrough. by destruct (key_sources d !! p). Qed.

Lemma unload_union_inv (p : string) (d : Passthrough) :
  union_inv d → union_inv (unloadPassthrough p d).
Proof.
  intros Hinv c. unfold contributed. rewrite unload_key_sources.
  unfold unloadPassthrough. destruct (key_sources d !! p) as [vec| ] eqn:E; simpl.
  - rewrite elem_of_readd, elem_of_erase_codes. split; [ |by right].
    intros [[Hc Hn]|?]; [ |done].
    apply Hinv in Hc as (q & v & Hq & Hv). exists q, v. split; [ |done].
    rewrite lookup_delete_ne; [done| ]. intros ->. congruence.
  - rewrite delete_id by done. apply Hinv.
Qed.

Lemma unload_contributed (p : string) (d : Passthrough) (c : Z) :
  contributed (unloadPassthrough p d) c
  ↔ ∃ q vec, q ≠ p ∧ key_sources d !! q = Some vec ∧ c ∈ vec.
Proof.
  unfold contributed. rewrite unload_key_sources. split.
  - intros (q & vec & Hq & Hc). apply lookup_delete_Some in Hq as [? ?].
    exists q, vec. auto.
  - intros (q & vec & Hne & Hq & Hc). exists q, vec.
    by rewrite lookup_delete_ne.
Qed.

Lemma unload_nonneg_inv (p : string) (d : Passthrough) :
  nonneg_inv d → nonneg_inv (unloadPassthrough p d).
Proof.
  intros Hinv q vec c. rewrite unload_key_sources.
  intros Hq Hc. apply lookup_delete_Some in Hq as [_ Hq].
  exact (Hinv _ _ _ Hq Hc).
Qed.

Lemma printf_union_inv (l : LogLine) (d : Passthrough) :
  union_inv d → union_inv (printf l d).
Proof. done. Qed.

Lemma printf_nonneg_inv (l : LogLine) (d : Passthrough) :
  nonneg_inv d → nonneg_inv (printf l d).
Proof. done. Qed.

(** The state after a load whose path resolves and whose CSV parses. *)
Lemma load_ok (fs : FileSystem) (rel_path p : string) (cells : list string)
    (d : Passthrough) :
  realpath fs rel_path = Some p →
  getColCells_key_code fs p = inr cells →
  loadPassthrough fs rel_path d
  = {| key_sources := <[p := cell_codes cells]> (delete p (key_sources d));
       passthrough_keys :=
         list_to_set (cell_codes cells) ∪ passthrough_keys (unloadPassthrough p d);
       keys_fsw := {[p]} ∪ keys_fsw d;
       stdout := stdout (unloadPassthrough p d) ++ [LogLOADED p] |}.
Proof.
  intros Hr Hc. unfold loadPassthrough. rewrite Hr, Hc, load_cells_spec. simpl.
  by rewrite unload_key_sources, unload_keys_fsw.
Qed.

(** The state after a load whose path resolves and whose CSV fails. *)
Lemma load_csv_error (fs : FileSystem) (rel_path p what : string)
    (d : Passthrough) :
  realpath fs rel_path = Some p →
  getColCells_key_code fs p = inl what →
  loadPassthrough fs rel_path d
  = printf (LogLoadError what) (unloadPassthrough p d).
Proof. intros Hr Hc. unfold loadPassthrough. by rewrite Hr, Hc. Qed.

Lemma load_union_inv (fs : FileSystem) (rel_path : string) (d : Passthrough) :
  union_inv d → union_inv (loadPassthrough fs rel_path d).
Proof.
  intros Hinv. destruct (realpath fs rel_path) as [p| ] eqn:Hr.
  - destruct (getColCells_key_code fs p) as [what|cells] eqn:Hc.
    + rewrite (load_csv_error _ _ _ _ _ Hr Hc).
      by apply printf_union_inv, unload_union_inv.
    + rewrite (load_ok _ _ _ _ _ Hr Hc). intros c. unfold contributed. simpl.
      rewrite elem_of_union, elem_of_list_to_set.
      rewrite (unload_union_inv p d Hinv c), unload_contributed. split.
      * intros [Hc'|(q & vec & Hne & Hq & Hv)].
        -- exists p, (cell_codes cells). by rewrite lookup_insert_eq.
        -- exists q, vec. rewrite lookup_insert_ne, lookup_delete_ne by done. done.
      * intros (q & vec & Hq & Hv). destruct (decide (p = q)) as [->|Hne].
        -- rewrite lookup_insert_eq in Hq. left. congruence.
        -- rewrite lookup_insert_ne, lookup_delete_ne in Hq by done.
           right. exists q, vec. auto.
  - unfold loadPassthrough. rewrite Hr. by apply printf_union_inv.
Qed.

Lemma load_nonneg_inv (fs : FileSystem) (rel_path : string) (d : Passthrough) :
  nonneg_inv d → nonneg_inv (loadPassthrough fs rel_path d).
Proof.
  intros Hinv. destruct (realpath fs rel_path) as [p| ] eqn:Hr.
  - destruct (getColCells_key_code fs p) as [what|cells] eqn:Hc.
    + rewrite (load_csv_error _ _ _ _ _ Hr Hc).
      by apply printf_nonneg_inv, unload_nonneg_inv.
    + rewrite (load_ok _ _ _ _ _ Hr Hc). intros q vec c. simpl.
      destruct (decide (p = q)) as [->|Hne].
      * rewrite lookup_insert_eq. intros [= <-]. apply cell_codes_nonneg.
      * rewrite lookup_insert_ne, lookup_delete_ne by done.
        intros Hq Hv. exact (Hinv _ _ _ Hq Hv).
  - unfold loadPassthrough. rewrite Hr. by apply printf_nonneg_inv.
Qed.

Lemma load_ev_cases (uid : Z) (fs : FileSystem) (e : FSEvent) (d : Passthrough) :
  loadPassthrough_ev uid fs e d
  = (if bool_decide (perm_ok uid e)
     then loadPassthrough fs (path e)
            (printf (LogPerm (perm_of e) uid) (printf (LogOK (path e)) d))
     else printf (LogPerm (perm_of e) uid) (printf (LogInvalidPerm (path e)) d)).
Proof.
  unfold loadPassthrough_ev, perm_ok.
  destruct (perm_of e =? 420) eqn:E1, (st_uid (stbuf e) =? uid) eqn:E2; simpl;
    case_bool_decide as H; try done; exfalso; lia.
Qed.

Lemma call_union_inv (c : Call) (d : Passthrough) :
  union_inv d → union_inv (call d c).
Proof.
  intros Hinv. destruct c as [fs rel|uid fs e|p|uid fs e]; simpl.
  - by apply load_union_inv.
  - rewrite load_ev_cases. case_bool_decide; [by apply load_union_inv|done].
  - by apply unload_union_inv.
  - unfold keys_fsw_callback.
    destruct (negb _); [by apply unload_union_inv| ].
    destruct (negb _); [ |done].
    rewrite load_ev_cases. case_bool_decide; [by apply load_union_inv|done].
Qed.

Lemma call_nonneg_inv (c : Call) (d : Passthrough) :
  nonneg_inv d → nonneg_inv (call d c).
Proof.
  intros Hinv. destruct c as [fs rel|uid fs e|p|uid fs e]; simpl.
  - by apply load_nonneg_inv.
  - rewrite load_ev_cases. case_bool_decide; [by apply load_nonneg_inv|done].
  - by apply unload_nonneg_inv.
  - unfold keys_fsw_callback.
    destruct (negb _); [by apply unload_nonneg_inv| ].
    destruct (negb _); [ |done].
    rewrite load_ev_cases. case_bool_decide; [by apply load_nonneg_inv|done].
Qed.

Lemma calls_inv (cs : list Call) (d : Passthrough) :
  union_inv d → nonneg_inv d →
  union_inv (calls cs d) ∧ nonneg_inv (calls cs d).
Proof.
  unfold calls. revert d. induction cs as [|c cs IH]; intros d H1 H2; simpl.
  - done.
  - apply IH; [by apply call_union_inv|by apply call_nonneg_inv].
Qed.

Lemma init_union_inv : union_inv init.
Proof.
  intros c. unfold contributed. simpl. split; [set_solver| ].
  intros (p & vec & H & _). by rewrite lookup_empty in H.
Qed.

Lemma init_nonneg_inv : nonneg_inv init.
Proof. intros p vec c H. simpl in H. by rewrite lookup_empty in H. Qed.

Lemma calls_snoc (cs : list Call) (c : Call) (d : Passthrough) :
  calls (cs ++ [c]) d = call (calls cs d) c.
Proof. unfold calls. by rewrite foldl_app. Qed.

Lemma perm_of_low_bits (e : FSEvent) :
  perm_of e = st_mode (stbuf e) mod 2 ^ 9.
Proof. unfold perm_of. apply (Z.land_ones _ 9). lia. Qed.

(** ** Claims about the passthrough set *)

(** C1 (permission gate). A load through [loadPassthrough] on an [FSEvent]
    whose mode, in its lower nine bits, is not 0644, or whose [st_uid] is
    not the daemon's uid, is rejected: a warning is printed, and
    [key_sources], [passthrough_keys] and the watch list are what they
    were, the file's prior contribution included. *)
Theorem C1_permission_gate (uid : Z) (fs : FileSystem) (e : FSEvent)
    (d : Passthrough) :
  st_mode (stbuf e) mod 2 ^ 9 ≠ 420 ∨ st_uid (stbuf e) ≠ uid →
  let d' := loadPassthrough_ev uid fs e d in
  key_sources d' = key_sources d
  ∧ passthrough_keys d' = passthrough_keys d
  ∧ keys_fsw d' = keys_fsw d
  ∧ key_sources d' !! path e = key_sources d !! path e
  ∧ stdout d' = stdout d ++ [LogInvalidPerm (path e); LogPerm (perm_of e) uid].
Proof.
  intros Hbad d'. subst d'. rewrite load_ev_cases.
  rewrite bool_decide_eq_false_2.
  - simpl. by rewrite <- app_assoc.
  - unfold perm_ok. rewrite perm_of_low_bits. intros [? ?]. by destruct Hbad.
Qed.

Lemma C1_permission_gate_witness :
  key_sources (loadPassthrough_ev 0 fs_AB ev_world_writable loaded_A)
  = key_sources loaded_A.
Proof.
  apply (C1_permission_gate 0 fs_AB ev_world_writable loaded_A).
  left. vm_compute. discriminate.
Defined.

(** C3 (set union). After any sequence of loads and unloads from the
    initial state, [contains c] holds exactly when some loaded file
    contributed [c]; and when a file that contributes [c] stays loaded,
    unloading another file keeps [c] in the set. *)
Theorem C3_set_union (cs : list Call) (c : Z) :
  let d := calls cs init in
  (contains d c = true ↔ contributed d c)
  ∧ (∀ pA pB vecA,
       pA ≠ pB → key_sources d !! pA = Some vecA → c ∈ vecA →
       contains (unloadPassthrough pB d) c = true).
Proof.
  intros d. subst d. unfold contains. split.
  - rewrite bool_decide_eq_true.
    apply (calls_inv cs init init_union_inv init_nonneg_inv).
  - intros pA pB vecA Hne HA Hc. rewrite bool_decide_eq_true.
    destruct (calls_inv (cs ++ [CallUnload pB]) init
                init_union_inv init_nonneg_inv) as [Hinv _].
    rewrite calls_snoc in Hinv. simpl in Hinv. apply Hinv.
    apply unload_contributed. eauto.
Qed.

Lemma C3_set_union_witness :
  contains (unloadPassthrough "/k/B"
              (calls [CallLoad fs_AB "/k/A"; CallLoad fs_AB "/k/B"] init)) 30
  = true.
Proof.
  apply (proj2 (C3_set_union [CallLoad fs_AB "/k/A"; CallLoad fs_AB "/k/B"] 30)
           "/k/A"%string "/k/B"%string [30]).
  - vm_compute. discriminate.
  - vm_compute. reflexivity.
  - vm_compute. left.
Defined.

(** C4, counterexample. A (codes 30) is loaded, then reloaded when it no
    longer parses: its entry is gone and 30 is no longer contained. *)
Lemma C4_counterexample : ¬ C4_as_stated.
Proof.
  intros H.
  destruct (H fs_A_broken "/k/A"%string "/k/A"%string "CSV error"%string loaded_A)
    as [H1 _]; [reflexivity|reflexivity| ].
  vm_compute in H1. discriminate.
Qed.

(** C4, amended. A load whose path resolves to [p] and whose CSV fails to
    parse prints the error and returns; the state is that of
    [unloadPassthrough p]: the prior contribution of [p] is dropped, the
    contributions of the other files are kept, and the set is their
    union. *)
Theorem C4_parse_error_unloads (fs : FileSystem) (rel_path p what : string)
    (cs : list Call) :
  realpath fs rel_path = Some p →
  getColCells_key_code fs p = inl what →
  let d := calls cs init in
  let d' := loadPassthrough fs rel_path d in
  d' = printf (LogLoadError what) (unloadPassthrough p d)
  ∧ key_sources d' !! p = None
  ∧ (∀ q, q ≠ p → key_sources d' !! q = key_sources d !! q)
  ∧ (∀ c, contains d' c = true
          ↔ ∃ q vec, q ≠ p ∧ key_sources d !! q = Some vec ∧ c ∈ vec).
Proof.
  intros Hr Hc d d'. subst d'. rewrite (load_csv_error _ _ _ _ _ Hr Hc).
  split; [done| ]. simpl. rewrite unload_key_sources.
  split; [apply lookup_delete_eq| ].
  split; [intros q Hq; by apply lookup_delete_ne| ].
  intros c. unfold contains. rewrite bool_decide_eq_true. simpl.
  rewrite <- unload_contributed. apply unload_union_inv.
  apply (calls_inv cs init init_union_inv init_nonneg_inv).
Qed.

Lemma C4_parse_error_unloads_witness :
  key_sources (loadPassthrough fs_A_broken "/k/A" loaded_A) !! "/k/A"%string
  = None.
Proof.
  apply (C4_parse_error_unloads fs_A_broken "/k/A" "/k/A" "CSV error"
           [CallLoad fs_AB "/k/A"]); reflexivity.
Defined.

(** C9 (cells). In a load whose path resolves and whose CSV parses, the
    list stored for the path is the list of the codes of the cells, in
    order, and the set gains exactly these codes: a cell on which [stoi]
    gives [i >= 0] contributes the one code [i]; a cell on which [stoi]
    throws contributes nothing, and the cells before and after it
    contribute what they contribute without it; the load completes. *)
Theorem C9_cells (fs : FileSystem) (rel_path p : string)
    (cells : list string) (d : Passthrough) :
  realpath fs rel_path = Some p →
  getColCells_key_code fs p = inr cells →
  let d' := loadPassthrough fs rel_path d in
  key_sources d' !! p = Some (cell_codes cells)
  ∧ passthrough_keys d'
    = list_to_set (cell_codes cells) ∪ passthrough_keys (unloadPassthrough p d)
  ∧ last (stdout d') = Some (LogLOADED p)
  ∧ (∀ l1 s l2 i, cells = l1 ++ s :: l2 → stoi s = StoiOk i → 0 ≤ i →
       cell_codes cells = cell_codes l1 ++ i :: cell_codes l2
       ∧ i ∈ passthrough_keys d')
  ∧ (∀ l1 s l2, cells = l1 ++ s :: l2 →
       stoi s = InvalidArgument ∨ stoi s = OutOfRange →
       cell_codes cells = cell_codes l1 ++ cell_codes l2).
Proof.
  intros Hr Hc d'. subst d'. rewrite (load_ok _ _ _ _ _ Hr Hc). simpl.
  split; [apply lookup_insert_eq| ]. split; [done| ].
  split; [apply last_snoc| ]. split.
  - intros l1 s l2 i -> Hs Hi. rewrite (cell_codes_mid_ok l1 s l2 i Hs Hi).
    split; [done| ].
    rewrite elem_of_union, elem_of_list_to_set, elem_of_app, elem_of_cons. auto.
  - intros l1 s l2 -> Hs. by apply cell_codes_mid_throw.
Qed.

Lemma C9_cells_witness :
  key_sources (loadPassthrough fs_mixed "/k/M" init) !! "/k/M"%string
  = Some [30; 31].
Proof.
  apply (C9_cells fs_mixed "/k/M" "/k/M" ["30"; "key"; "-4"; ""; "31"]%string init);
    reflexivity.
Defined.

(** C10 (no negative code). After any sequence of loads and unloads from
    the initial state every code of the set is non-negative, and
    [contains c] is false for every negative [c]. *)
Theorem C10_nonneg (cs : list Call) (c : Z) :
  (c ∈ passthrough_keys (calls cs init) → 0 ≤ c)
  ∧ (c < 0 → contains (calls cs init) c = false).
Proof.
  destruct (calls_inv cs init init_union_inv init_nonneg_inv) as [Hu Hn].
  assert (c ∈ passthrough_keys (calls cs init) → 0 ≤ c) as H.
  { intros Hc. apply Hu in Hc as (p & vec & Hp & Hv). exact (Hn _ _ _ Hp Hv). }
  split; [done| ]. intros Hneg. unfold contains.
  apply bool_decide_eq_false. intros Hc. apply H in Hc. lia.
Qed.

Lemma C10_nonneg_witness :
  contains (calls [CallLoad fs_mixed "/k/M"] init) (-4) = false.
Proof.
  apply (proj2 (C10_nonneg [CallLoad fs_mixed "/k/M"] (-4))). lia.
Defined.

(** ** The run loop *)

Lemma default_last_cons {A} (l : list A) (x y : A) :
  default y (last (x :: l)) = default x (last l).
Proof.
  revert x y. induction l as [|k l IH]; intros x y; [done| ].
  change (last (x :: k :: l)) with (last (k :: l)).
  by rewrite (IH k y), (IH k x).
Qed.

Lemma recv_loop_reply (a : KBDAction) (rs : list (option KBDAction))
    (st : RunState) :
  done a = 0 →
  recv_loop (Some a :: rs) st
  = recv_loop rs (set_udev (emit (ev a)) (set_action (fun _ => a) st)).
Proof. intros H. simpl. by rewrite H. Qed.

Lemma recv_loop_done (replies : list KBDAction) (fin : KBDAction)
    (rest : list (option KBDAction)) (st : RunState) :
  Forall (fun a => done a = 0) replies → done fin ≠ 0 →
  ∃ st', recv_loop ((Some <$> replies) ++ Some fin :: rest) st = Running st'
         ∧ errors st' = 0
         ∧ udev st' = flush (emit_all (ev <$> replies) (udev st))
         ∧ kbd_com st' = kbd_com st
         ∧ action st' = fin.
Proof.
  intros Hrep Hfin. revert st.
  induction Hrep as [|a replies Ha _ IH]; intros st.
  - simpl. destruct (Z.eqb_spec (done fin) 0) as [?|_]; [done| ]. simpl.
    eexists. by repeat split.
  - rewrite fmap_cons, <- app_comm_cons, (recv_loop_reply _ _ _ Ha).
    destruct (IH (set_udev (emit (ev a)) (set_action (fun _ => a) st)))
      as (st' & -> & ? & ? & ? & ?).
    eexists. by repeat split.
Qed.

(** A socket error after the replies [replies]: the budget is charged, and
    the event emitted by the fall-through is the one [action] holds then. *)
Lemma recv_loop_error (replies : list KBDAction)
    (rest : list (option KBDAction)) (st : RunState) :
  Forall (fun a => done a = 0) replies → errors st ≤ MAX_ERRORS →
  ∃ st', recv_loop ((Some <$> replies) ++ None :: rest) st = Running st'
         ∧ errors st' = errors st + 1
         ∧ udev st'
           = flush (emit (ev (default (action st) (last replies)))
                      (emit_all (ev <$> replies) (udev st))).
Proof.
  intros Hrep. revert st.
  induction Hrep as [|a replies Ha _ IH]; intros st Hle.
  - simpl. unfold on_SocketError.
    destruct (Z.gtb_spec (errors st) MAX_ERRORS); [lia| ].
    eexists. by repeat split.
  - rewrite fmap_cons, <- app_comm_cons, (recv_loop_reply _ _ _ Ha).
    destruct (IH (set_udev (emit (ev a)) (set_action (fun _ => a) st)) Hle)
      as (st' & -> & ? & Hu). eexists. split; [done| ]. split; [done| ].
    rewrite Hu. simpl. by rewrite default_last_cons.
Qed.

Lemma on_SocketError_aborts (st : RunState) :
  (∃ st', on_SocketError st = Aborted st') ↔ MAX_ERRORS + 1 ≤ errors st.
Proof.
  unfold on_SocketError. destruct (Z.gtb_spec (errors st) MAX_ERRORS); split.
  - lia.
  - eauto.
  - intros [st' Hst']. discriminate.
  - lia.
Qed.

Lemma forget_action_fields (st1 st2 : RunState) :
  forget_action st1 = forget_action st2 →
  kbds st1 = kbds st2 ∧ available_kbds st1 = available_kbds st2
  ∧ pulled_kbds st1 = pulled_kbds st2 ∧ errors st1 = errors st2
  ∧ udev st1 = udev st2 ∧ kbd_com st1 = kbd_com st2 ∧ syslog st1 = syslog st2.
Proof.
  destruct st1, st2. unfold forget_action, set_action. simpl.
  intros [= -> -> -> -> -> -> ->]. done.
Qed.

(** A turn does not read what [action] held before it. *)
Lemma iteration_forgets (d : Passthrough) (t : Turn) (st1 st2 : RunState) :
  forget_action st1 = forget_action st2 →
  observe (iteration d t st1) = observe (iteration d t st2).
Proof.
  intros H. apply forget_action_fields in H as (H1 & H2 & H3 & H4 & H5 & H6 & H7).
  destruct st1 as [k1 a1 p1 act1 e1 u1 s1 l1], st2 as [k2 a2 p2 act2 e2 u2 s2 l2].
  simpl in *. subst. unfold iteration. destruct (polled t) as [|idx got]; simpl.
  - done.
  - destruct (a2 !! idx) as [k| ]; [ |done]. destruct got as [e| ]; [ |done].
    unfold set_action. simpl. destruct (k2 !! k) as [kb| ]; [ |done]. done.
Qed.

Lemma run_forgets (ts : list (Passthrough * Turn)) (st1 st2 : RunState) :
  forget_action st1 = forget_action st2 →
  observe (run ts st1) = observe (run ts st2).
Proof.
  revert st1 st2. induction ts as [|[d t] ts IH]; intros st1 st2 H; simpl.
  - by f_equal.
  - pose proof (iteration_forgets d t st1 st2 H) as Hit.
    destruct (iteration d t st1) as [s1|s1|s1| ], (iteration d t st2) as [s2|s2|s2| ];
      simpl in Hit |- *; try discriminate; try assumption.
    apply IH. congruence.
Qed.

(** The fall-through when [send] or the first [recv] fails: the key that
    was read is emitted once. *)
Lemma fallthrough_on_first_failure (d : Passthrough) (t : Turn) (st : RunState)
    (idx k : nat) (kb : Keyboard) (e : input_event) :
  polled t = Readable idx (Some e) →
  available_kbds st !! idx = Some k → kbds st !! k = Some kb →
  state kb = LOCKED → contains d (code e) = true →
  errors st ≤ MAX_ERRORS →
  send_ok t = false ∨ (∃ rest, recvs t = None :: rest) →
  ∃ st', iteration d t st = Running st'
         ∧ errors st' = errors st + 1
         ∧ udev st' = flush (emit e (udev st)).
Proof.
  intros Hp Ha Hk Hs Hc Hle Hfail. unfold iteration. rewrite Hp. simpl.
  rewrite Ha, Hk, Hs. simpl. unfold handle_key. simpl. rewrite Hc.
  assert (on_SocketError_le : ∀ s, errors s ≤ MAX_ERRORS →
            on_SocketError s = Running (emit_key (set_errors (fun x => x + 1) s))).
  { intros s Hs'. unfold on_SocketError.
    by destruct (Z.gtb_spec (errors s) MAX_ERRORS); [lia| ]. }
  destruct Hfail as [-> | [rest Hr]].
  - rewrite on_SocketError_le by done. eexists. by repeat split.
  - rewrite Hr. destruct (send_ok t); simpl.
    + rewrite on_SocketError_le by done. eexists. by repeat split.
    + rewrite on_SocketError_le by done. eexists. by repeat split.
Qed.

(** The fall-through when the socket fails after at least one reply: the
    replies received so far are emitted, and then the last of them once
    more; the key that was read is not emitted by the fall-through. *)
Lemma fallthrough_after_replies (d : Passthrough) (t : Turn) (st : RunState)
    (idx k : nat) (kb : Keyboard) (e : input_event)
    (r : KBDAction) (replies : list KBDAction) (rest : list (option KBDAction)) :
  polled t = Readable idx (Some e) →
  available_kbds st !! idx = Some k → kbds st !! k = Some kb →
  state kb = LOCKED → contains d (code e) = true →
  errors st ≤ MAX_ERRORS → send_ok t = true →
  recvs t = (Some <$> r :: replies) ++ None :: rest →
  Forall (fun a => done a = 0) (r :: replies) →
  ∃ st', iteration d t st = Running st'
         ∧ errors st' = errors st + 1
         ∧ udev st'
           = flush (emit (ev (default r (last replies)))
                      (emit_all (ev <$> r :: replies) (udev st))).
Proof.
  intros Hp Ha Hk Hs Hc Hle Hsend Hr Hdone. unfold iteration. rewrite Hp. simpl.
  rewrite Ha, Hk, Hs. simpl. unfold handle_key. simpl. rewrite Hc, Hsend, Hr.
  edestruct (recv_loop_error (r :: replies) rest) as (st' & -> & He & Hu);
    [done| |eexists; split; [done| ]; split; [exact He| ]]; [done| ].
  rewrite Hu. simpl. by rewrite default_last_cons.
Qed.

(** ** Claims about the run loop *)

(** C2 (fall-through), evaluated where the claim fails. Key 30 is read from
    a grabbed keyboard and is a passthrough key; [send] succeeds, the macro
    daemon answers with key 31, then [recv] fails; the budget is not
    exceeded. The virtual device gets key 31 twice, and key 30, the key
    that was pressed, not at all: [recv] has overwritten [action]. *)
Theorem C2_fallthrough_emits_last_reply :
  ∃ st', iteration loaded_A turn_fail_after_reply st_locked = Running st'
         ∧ errors st' = 1
         ∧ written (udev st') = [key31; key31]
         ∧ key30 ∉ written (udev st').
Proof.
  eexists. split; [vm_compute; reflexivity| ]. simpl.
  split; [done| ]. split; [done| ].
  intros H. repeat (apply elem_of_cons in H as [H|H]; [discriminate| ]).
  by apply elem_of_nil in H.
Qed.

(** C5 (error budget), evaluated where the claim fails. From a budget of 0,
    31 consecutive socket errors leave the daemon running, with the counter
    at 31; the abort comes with the 32nd. *)
Theorem C5_abort_on_32nd_error :
  (∃ st', run (replicate 31 (loaded_A, turn_send_fails)) st_locked = Running st'
          ∧ errors st' = 31
          ∧ closed (kbd_com st') = false)
  ∧ (∃ st', run (replicate 32 (loaded_A, turn_send_fails)) st_locked = Aborted st'
            ∧ closed (kbd_com st') = true).
Proof.
  split; eexists; (split; [vm_compute; reflexivity| ]); done.
Qed.

(** C6 (budget reset). A turn in which a passthrough key is read from a
    grabbed keyboard, [send] succeeds and the replies end with one whose
    [done] is set, ends with [errors = 0]: the next turn starts from 0.
    The replies before the final one were emitted and flushed, the key
    itself was sent and not emitted. *)
Theorem C6_budget_reset (d : Passthrough) (t : Turn) (st : RunState)
    (idx k : nat) (kb : Keyboard) (e : input_event)
    (replies : list KBDAction) (fin : KBDAction) (rest : list (option KBDAction)) :
  polled t = Readable idx (Some e) →
  available_kbds st !! idx = Some k → kbds st !! k = Some kb →
  state kb = LOCKED → contains d (code e) = true →
  send_ok t = true →
  recvs t = (Some <$> replies) ++ Some fin :: rest →
  Forall (fun a => done a = 0) replies → done fin ≠ 0 →
  ∃ st', iteration d t st = Running st'
         ∧ errors st' = 0
         ∧ udev st' = flush (emit_all (ev <$> replies) (udev st))
         ∧ sent (kbd_com st') = sent (kbd_com st) ++ [{| ev := e; done := 0 |}].
Proof.
  intros Hp Ha Hk Hs Hc Hsend Hr Hrep Hfin. unfold iteration. rewrite Hp. simpl.
  rewrite Ha, Hk, Hs. simpl. unfold handle_key. simpl. rewrite Hc, Hsend, Hr.
  edestruct (recv_loop_done replies fin rest) as (st' & -> & He & Hu & Hk' & _);
    [done..| ].
  eexists. split; [done| ]. split; [done| ]. by rewrite Hu, Hk'.
Qed.

Lemma C6_budget_reset_witness :
  ∃ st', iteration loaded_A turn_echo (set_errors (fun _ => 7) st_locked)
         = Running st'
         ∧ errors st' = 0
         ∧ udev st' = flush (emit_all [key30] (udev st_locked))
         ∧ sent (kbd_com st') = [{| ev := key30; done := 0 |}].
Proof.
  apply (C6_budget_reset loaded_A turn_echo (set_errors (fun _ => 7) st_locked)
           0%nat 0%nat
           {| name := "kbd"; dev_path := "/dev/input/event3"; state := LOCKED |}
           key30 [{| ev := key30; done := 0 |}] {| ev := key30; done := 1 |} []).
  - reflexivity.
  - reflexivity.
  - reflexivity.
  - reflexivity.
  - vm_compute. reflexivity.
  - reflexivity.
  - reflexivity.
  - repeat constructor.
  - simpl. lia.
Defined.

(** C7 (no leak before the lock). A turn that reads from a keyboard whose
    state is not LOCKED, whether the read gives an event or fails, sends
    nothing to the socket and gives nothing to the virtual device; and the
    event it read, left in [action], has no effect on any later turn. *)
Theorem C7_no_leak_pre_lock (d : Passthrough) (t : Turn) (st : RunState)
    (idx k : nat) (kb : Keyboard) (got : option input_event) :
  polled t = Readable idx got →
  available_kbds st !! idx = Some k → kbds st !! k = Some kb →
  state kb ≠ LOCKED →
  ∃ st', iteration d t st = Running st'
         ∧ udev st' = udev st
         ∧ kbd_com st' = kbd_com st
         ∧ errors st' = errors st
         ∧ ∀ ts a, observe (run ts (set_action (fun _ => a) st'))
                   = observe (run ts st').
Proof.
  intros Hp Ha Hk Hs. unfold iteration. rewrite Hp. simpl. rewrite Ha.
  destruct got as [e| ].
  - simpl. rewrite Hk. destruct (state kb) eqn:E; [ |done| ]; simpl;
      (eexists; split; [done| ]; repeat split; intros; by apply run_forgets).
  - eexists. split; [done| ]. repeat split. intros. by apply run_forgets.
Qed.

Lemma C7_no_leak_pre_lock_witness :
  ∃ st', iteration loaded_A turn_echo st_initial = Running st'
         ∧ udev st' = udev st_initial
         ∧ kbd_com st' = kbd_com st_initial
         ∧ errors st' = errors st_initial
         ∧ ∀ ts a, observe (run ts (set_action (fun _ => a) st'))
                   = observe (run ts st').
Proof.
  apply (C7_no_leak_pre_lock loaded_A turn_echo st_initial 0%nat 0%nat
           {| name := "kbd"; dev_path := "/dev/input/event3"; state := INITIAL |}
           (Some key30)).
  - reflexivity.
  - reflexivity.
  - reflexivity.
  - simpl. discriminate.
Defined.

(** ** The hot-plug wait *)

(** The test [4 & grp_perm && grp_perm & 2] reads bits that
    [st_mode & S_IRWXG] never has: the group read and write bits are 040
    and 020. *)
Lemma group_rw_test_dead (m : Z) :
  Z.land 4 (Z.land m S_IRWXG) = 0 ∧ Z.land (Z.land m S_IRWXG) 2 = 0.
Proof.
  split.
  - rewrite (Z.land_comm m), Z.land_assoc. apply Z.land_0_l.
  - rewrite <- Z.land_assoc. apply Z.land_0_r.
Qed.

(** The loop is bounded: with [fuel] turns left and [wait_time] waited,
    the cap is passed before the turns run out. *)
Lemma wait_permissions_bounded (fuel : nat) (stat_at : nat → option stat)
    (ev_mode input_gid : Z) (n : nat) (wait_time : Z) :
  wait_time ≤ FSW_MAX_WAIT_PERMISSIONS_US →
  FSW_MAX_WAIT_PERMISSIONS_US < wait_time + Z.of_nat fuel * wait_inc_us →
  is_Some (wait_permissions fuel stat_at ev_mode input_gid n wait_time).
Proof.
  revert n wait_time. unfold wait_inc_us.
  induction fuel as [|fuel IH]; intros n wait_time Hle Hlt.
  - lia.
  - cbn [wait_permissions].
    destruct (bool_decide (is_Some (stat_at n)) && negb (S_ISCHR ev_mode)); [done| ].
    unfold wait_inc_us.
    destruct (Z.gtb_spec (wait_time + 100) FSW_MAX_WAIT_PERMISSIONS_US); [done| ].
    match goal with |- is_Some (if ?b then _ else _) => destruct b end; [ |done].
    apply IH; lia.
Qed.

Lemma wait_permissions_total (stat_at : nat → option stat)
    (ev_mode input_gid : Z) (n : nat) :
  is_Some (wait_permissions wait_fuel stat_at ev_mode input_gid n 0).
Proof.
  apply wait_permissions_bounded; [unfold FSW_MAX_WAIT_PERMISSIONS_US; lia| ].
  unfold wait_fuel, FSW_MAX_WAIT_PERMISSIONS_US, wait_inc_us.
  rewrite Z2Nat.id by (vm_compute; discriminate). vm_compute. reflexivity.
Qed.

(** The loop is left at the first [stat] that fails, or that shows the
    input group as owner, whatever the mode it shows. *)
Lemma wait_left_on_first_stat (fuel : nat) (stat_at : nat → option stat)
    (ev_mode input_gid : Z) (n : nat) :
  S_ISCHR ev_mode = true →
  stat_at n = None ∨ (∃ sb, stat_at n = Some sb ∧ st_gid sb = input_gid) →
  wait_permissions (S fuel) stat_at ev_mode input_gid n 0
  = Some (LoopLeft wait_inc_us (S n)).
Proof.
  intros Hchr Hst. cbn [wait_permissions]. rewrite Hchr, andb_false_r.
  destruct Hst as [-> | (sb & -> & Hg)]; [done| ].
  rewrite Hg, Z.eqb_refl, andb_false_r. done.
Qed.

(** A character device that stays root:root is given up on after 50001
    calls of [stat], whatever its mode. *)
Example wait_gives_up :
  match wait_permissions wait_fuel
          (fun _ => Some {| st_mode := 8624; st_uid := 0; st_gid := 0 |})
          8624 input_gid_ex 0 0 with
  | Some (GaveUp calls) => Z.of_nat calls = 50001
  | _ => False
  end.
Proof. vm_compute. reflexivity. Qed.

(** ** Claim about the hot-plug callback *)

(** C8 (permission wait), evaluated where the claim fails.
    /dev/input/event7 is a character device owned by root:input with mode
    0600: the group is right, the group read and write bits are not set.
    The callback leaves the wait after one turn of 100 microseconds, asks
    the pulled keyboard [isMe], and resets and locks it. *)
Theorem C8_wait_ends_without_group_rw :
  ∃ st', input_fsw_callback stat_root_input_0600 (fun _ _ => true)
           input_gid_ex ev_event7 st_pulled
         = (st', [StepWaited 0 100; StepIsMe 0 true; StepPluggedIn 0])
         ∧ available_kbds st' = [0%nat]
         ∧ pulled_kbds st' = []
         ∧ state <$> kbds st' !! 0%nat = Some LOCKED
         ∧ (∀ n sb, stat_root_input_0600 n = Some sb →
                    Z.land (st_mode sb) 48 (* 060 *) = 0).
Proof.
  eexists. split; [vm_compute; reflexivity| ]. simpl.
  repeat split. intros n sb [= <-]. reflexivity.
Qed.

(** ** More on the passthrough set: how the calls compose *)

Lemma union_inv_keys_eq (d1 d2 : Passthrough) :
  union_inv d1 → union_inv d2 → key_sources d1 = key_sources d2 →
  passthrough_keys d1 = passthrough_keys d2.
Proof.
  intros H1 H2 Hk. apply set_eq. intros c. rewrite (H1 c), (H2 c).
  unfold contributed. by rewrite Hk.
Qed.

Lemma reachable_union_inv (cs : list Call) : union_inv (calls cs init).
Proof. apply (calls_inv cs init init_union_inv init_nonneg_inv). Qed.

Lemma load_key_sources (fs : FileSystem) (rel_path : string) (d : Passthrough) :
  key_sources (loadPassthrough fs rel_path d)
  = match realpath fs rel_path with
    | None => key_sources d
    | Some p =>
        match getColCells_key_code fs p with
        | inl _ => delete p (key_sources d)
        | inr cells => <[p := cell_codes cells]> (key_sources d)
        end
    end.
Proof.
  destruct (realpath fs rel_path) as [p| ] eqn:Hr.
  - destruct (getColCells_key_code fs p) as [what|cells] eqn:Hc.
    + rewrite (load_csv_error _ _ _ _ _ Hr Hc). simpl. apply unload_key_sources.
    + rewrite (load_ok _ _ _ _ _ Hr Hc). simpl. apply insert_delete_eq.
  - unfold loadPassthrough. by rewrite Hr.
Qed.

Lemma load_keys_fsw (fs : FileSystem) (rel_path : string) (d : Passthrough) :
  keys_fsw (loadPassthrough fs rel_path d)
  = match realpath fs rel_path with
    | None => keys_fsw d
    | Some p =>
        match getColCells_key_code fs p with
        | inl _ => keys_fsw d
        | inr cells => {[p]} ∪ keys_fsw d
        end
    end.
Proof.
  destruct (realpath fs rel_path) as [p| ] eqn:Hr.
  - destruct (getColCells_key_code fs p) as [what|cells] eqn:Hc.
    + rewrite (load_csv_error _ _ _ _ _ Hr Hc). simpl. apply unload_keys_fsw.
    + by rewrite (load_ok _ _ _ _ _ Hr Hc).
  - unfold loadPassthrough. by rewrite Hr.
Qed.

Lemma unload_subseteq (p : string) (d : Passthrough) :
  union_inv d → passthrough_keys (unloadPassthrough p d) ⊆ passthrough_keys d.
Proof.
  intros Hinv c Hc. apply (unload_union_inv p d Hinv) in Hc.
  apply unload_contributed in Hc as (q & vec & _ & Hq & Hv).
  apply Hinv. by exists q, vec.
Qed.

(** X1 (unload twice). Unloading a path a second time changes nothing, not
    even the output: the first call has removed the entry, and without an
    entry [unloadPassthrough] returns at once. *)
Theorem X1_unload_idempotent (p : string) (d : Passthrough) :
  unloadPassthrough p (unloadPassthrough p d) = unloadPassthrough p d.
Proof.
  pose proof (unload_key_sources p d) as Hk.
  unfold unloadPassthrough at 1. by rewrite Hk, lookup_delete_eq.
Qed.

(** X2 (load, then unload). From a state reached by calls, loading a file
    that has no entry and unloading it again gives back the entries and the
    set of codes there were, also when the file lists codes that other
    files list too. *)
Theorem X2_load_unload_roundtrip (cs : list Call) (fs : FileSystem)
    (rel_path p : string) (cells : list string) :
  realpath fs rel_path = Some p →
  getColCells_key_code fs p = inr cells →
  key_sources (calls cs init) !! p = None →
  let d' := unloadPassthrough p (loadPassthrough fs rel_path (calls cs init)) in
  key_sources d' = key_sources (calls cs init)
  ∧ passthrough_keys d' = passthrough_keys (calls cs init).
Proof.
  intros Hr Hc Hnone d'. subst d'.
  assert (key_sources (unloadPassthrough p
            (loadPassthrough fs rel_path (calls cs init)))
          = key_sources (calls cs init)) as Hk.
  { rewrite unload_key_sources, load_key_sources, Hr, Hc.
    rewrite delete_insert_eq. by apply delete_id. }
  split; [done| ]. apply union_inv_keys_eq; [ | |done].
  - apply unload_union_inv, load_union_inv, reachable_union_inv.
  - apply reachable_union_inv.
Qed.

Lemma X2_load_unload_roundtrip_witness :
  passthrough_keys (unloadPassthrough "/k/B" (loadPassthrough fs_AB "/k/B" loaded_A))
  = passthrough_keys loaded_A.
Proof.
  apply (X2_load_unload_roundtrip [CallLoad fs_AB "/k/A"] fs_AB "/k/B" "/k/B"
           ["30"; "31"]%string); reflexivity.
Defined.

(** X3 (reload). Loading the same file twice in a row, unchanged in
    between, leaves the entries, the set of codes and the watch list as
    one load leaves them, whether the file parses or not. *)
Theorem X3_reload_idempotent (cs : list Call) (fs : FileSystem)
    (rel_path : string) :
  let d1 := loadPassthrough fs rel_path (calls cs init) in
  let d2 := loadPassthrough fs rel_path d1 in
  key_sources d2 = key_sources d1
  ∧ passthrough_keys d2 = passthrough_keys d1
  ∧ keys_fsw d2 = keys_fsw d1.
Proof.
  intros d1 d2. subst d1 d2.
  assert (key_sources (loadPassthrough fs rel_path
            (loadPassthrough fs rel_path (calls cs init)))
          = key_sources (loadPassthrough fs rel_path (calls cs init))) as Hk.
  { rewrite !load_key_sources. destruct (realpath fs rel_path) as [p| ]; [ |done].
    destruct (getColCells_key_code fs p) as [what|cells].
    - by rewrite delete_delete_eq.
    - by rewrite insert_insert_eq. }
  split; [done| ]. split.
  - apply union_inv_keys_eq; [ | |done];
      repeat apply load_union_inv; apply reachable_union_inv.
  - rewrite !load_keys_fsw. destruct (realpath fs rel_path) as [p| ]; [ |done].
    destruct (getColCells_key_code fs p) as [what|cells]; [done| ]. set_solver.
Qed.

(** X4 (loads of two files commute). When two loads resolve to different
    canonical paths, the entries, the set of codes and the watch list do
    not depend on which of the two comes first, whether each file parses
    or not. *)
Theorem X4_loads_commute (cs : list Call) (fs1 fs2 : FileSystem)
    (rel1 rel2 p1 p2 : string) :
  realpath fs1 rel1 = Some p1 → realpath fs2 rel2 = Some p2 → p1 ≠ p2 →
  let d12 := loadPassthrough fs2 rel2 (loadPassthrough fs1 rel1 (calls cs init)) in
  let d21 := loadPassthrough fs1 rel1 (loadPassthrough fs2 rel2 (calls cs init)) in
  key_sources d12 = key_sources d21
  ∧ passthrough_keys d12 = passthrough_keys d21
  ∧ keys_fsw d12 = keys_fsw d21.
Proof.
  intros H1 H2 Hne d12 d21. subst d12 d21.
  assert (key_sources (loadPassthrough fs2 rel2
            (loadPassthrough fs1 rel1 (calls cs init)))
          = key_sources (loadPassthrough fs1 rel1
              (loadPassthrough fs2 rel2 (calls cs init)))) as Hk.
  { rewrite !load_key_sources, H1, H2.
    destruct (getColCells_key_code fs1 p1), (getColCells_key_code fs2 p2).
    - apply delete_delete.
    - by rewrite delete_insert_ne.
    - by rewrite delete_insert_ne.
    - by apply insert_insert_ne. }
  split; [done| ]. split.
  - apply union_inv_keys_eq; [ | |done];
      repeat apply load_union_inv; apply reachable_union_inv.
  - rewrite !load_keys_fsw, H1, H2.
    destruct (getColCells_key_code fs1 p1), (getColCells_key_code fs2 p2);
      set_solver.
Qed.

Lemma X4_loads_commute_witness :
  passthrough_keys (loadPassthrough fs_AB "/k/B" (loadPassthrough fs_AB "/k/A" init))
  = passthrough_keys (loadPassthrough fs_AB "/k/A" (loadPassthrough fs_AB "/k/B" init)).
Proof.
  apply (X4_loads_commute [] fs_AB fs_AB "/k/A" "/k/B" "/k/A" "/k/B").
  - reflexivity.
  - reflexivity.
  - vm_compute. discriminate.
Defined.

(** ** More on the passthrough set: invariants over call sequences *)

Lemma load_ev_key_sources_cases (uid : Z) (fs : FileSystem) (e : FSEvent)
    (d : Passthrough) :
  (perm_ok uid e
   ∧ key_sources (loadPassthrough_ev uid fs e d)
     = key_sources (loadPassthrough fs (path e) d)
   ∧ keys_fsw (loadPassthrough_ev uid fs e d)
     = keys_fsw (loadPassthrough fs (path e) d))
  ∨ (¬ perm_ok uid e
     ∧ key_sources (loadPassthrough_ev uid fs e d) = key_sources d
     ∧ passthrough_keys (loadPassthrough_ev uid fs e d) = passthrough_keys d
     ∧ keys_fsw (loadPassthrough_ev uid fs e d) = keys_fsw d).
Proof.
  rewrite load_ev_cases. case_bool_decide as Hg; [left|right]; [ |done].
  split; [done| ]. by rewrite !load_key_sources, !load_keys_fsw.
Qed.

(** The entries and the watch list after any call, from those before it:
    an entry is one there was, or the one a load has just written, and
    then its path has just been added to the watch list. *)
Lemma call_entry (c : Call) (d : Passthrough) (p : string) (vec : list Z) :
  key_sources (call d c) !! p = Some vec →
  key_sources d !! p = Some vec
  ∨ (p ∈ keys_fsw (call d c) ∧ ∃ s, vec = cell_codes s).
Proof.
  assert (Hload : ∀ fs rel,
    key_sources (loadPassthrough fs rel d) !! p = Some vec →
    key_sources d !! p = Some vec
    ∨ (p ∈ keys_fsw (loadPassthrough fs rel d) ∧ ∃ s, vec = cell_codes s)).
  { intros fs rel. rewrite load_key_sources, load_keys_fsw.
    destruct (realpath fs rel) as [q| ]; [ |by left].
    destruct (getColCells_key_code fs q) as [what|cells].
    - intros Hq. apply lookup_delete_Some in Hq as [_ Hq]. by left.
    - destruct (decide (q = p)) as [->|Hne].
      + rewrite lookup_insert_eq. intros [= <-]. right. split; [set_solver|eauto].
      + rewrite lookup_insert_ne by done. by left. }
  assert (Hev : ∀ uid fs e,
    key_sources (loadPassthrough_ev uid fs e d) !! p = Some vec →
    key_sources d !! p = Some vec
    ∨ (p ∈ keys_fsw (loadPassthrough_ev uid fs e d) ∧ ∃ s, vec = cell_codes s)).
  { intros uid fs e.
    destruct (load_ev_key_sources_cases uid fs e d)
      as [(_ & -> & ->)|(_ & -> & _ & ->)]; [apply Hload|by left]. }
  destruct c as [fs rel|uid fs e|q|uid fs e]; simpl.
  - apply Hload.
  - apply Hev.
  - rewrite unload_key_sources. intros Hq.
    apply lookup_delete_Some in Hq as [_ Hq]. by left.
  - unfold keys_fsw_callback. destruct (negb _).
    + rewrite unload_key_sources. intros Hq.
      apply lookup_delete_Some in Hq as [_ Hq]. by left.
    + destruct (negb _); [apply Hev|by left].
Qed.

Lemma call_keys_fsw_mono (c : Call) (d : Passthrough) :
  keys_fsw d ⊆ keys_fsw (call d c).
Proof.
  assert (Hload : ∀ fs rel, keys_fsw d ⊆ keys_fsw (loadPassthrough fs rel d)).
  { intros fs rel. rewrite load_keys_fsw.
    destruct (realpath fs rel) as [q| ]; [ |done].
    destruct (getColCells_key_code fs q); set_solver. }
  assert (Hev : ∀ uid fs e, keys_fsw d ⊆ keys_fsw (loadPassthrough_ev uid fs e d)).
  { intros uid fs e.
    destruct (load_ev_key_sources_cases uid fs e d)
      as [(_ & _ & ->)|(_ & _ & _ & ->)]; [apply Hload|done]. }
  destruct c as [fs rel|uid fs e|q|uid fs e]; simpl.
  - apply Hload.
  - apply Hev.
  - by rewrite unload_keys_fsw.
  - unfold keys_fsw_callback. destruct (negb _).
    + by rewrite unload_keys_fsw.
    + destruct (negb _); [apply Hev|done].
Qed.

Lemma cell_code_fits_int (s : string) (c : Z) :
  cell_code s = Some c → 0 ≤ c ≤ INT_MAX.
Proof.
  unfold cell_code, stoi. destruct (strtol10 s) as [v| ]; [ |done].
  destruct (Z.leb_spec INT_MIN v), (Z.leb_spec v INT_MAX); simpl; try done.
  destruct (Z.leb_spec 0 v); [ |done]. intros [= <-]. lia.
Qed.

(** X5 (loaded files are watched). After any sequence of calls from the
    initial state, [keys_fsw.add] has been called on the path of every
    entry of [key_sources]; and no call takes a path off the watch list,
    an unload included. *)
Theorem X5_loaded_files_watched (cs : list Call) :
  watched_inv (calls cs init)
  ∧ ∀ c, keys_fsw (calls cs init) ⊆ keys_fsw (call (calls cs init) c).
Proof.
  split; [ |intros c; apply call_keys_fsw_mono].
  induction cs as [|c cs IH] using rev_ind.
  - intros p [vec H]. simpl in H. by rewrite lookup_empty in H.
  - rewrite calls_snoc. intros p [vec H].
    apply call_entry in H as [H|[H _]]; [ |done].
    apply (call_keys_fsw_mono c). apply IH. eauto.
Qed.

(** X6 (codes fit an [int]). After any sequence of calls from the initial
    state, every code of the set lies between 0 and [INT_MAX]: what
    [stoi] returns has passed its range check. *)
Theorem X6_codes_fit_int (cs : list Call) (c : Z) :
  contains (calls cs init) c = true → 0 ≤ c ≤ INT_MAX.
Proof.
  unfold contains. rewrite bool_decide_eq_true. intros Hc.
  apply reachable_union_inv in Hc as (p & vec & Hp & Hv).
  revert p vec Hp Hv. induction cs as [|k cs IH] using rev_ind; intros p vec Hp Hv.
  - simpl in Hp. by rewrite lookup_empty in Hp.
  - rewrite calls_snoc in Hp. apply call_entry in Hp as [Hp|[_ [s ->]]].
    + by apply (IH p vec).
    + unfold cell_codes in Hv. apply list_elem_of_omap in Hv as (x & _ & Hx).
      by apply (cell_code_fits_int x).
Qed.

Lemma X6_codes_fit_int_witness : 0 ≤ 30 ≤ INT_MAX.
Proof.
  apply (X6_codes_fit_int [CallLoad fs_AB "/k/A"] 30). vm_compute. reflexivity.
Defined.

(** X7 (a rejected file never widens the set). From a state reached by
    calls, whatever the watcher reports about a file that does not pass
    the permission gate, the callback adds no entry and no code: at most,
    on IN_DELETE_SELF, it removes the file's own. *)
Theorem X7_rejected_event_never_widens (cs : list Call) (uid : Z)
    (fs : FileSystem) (e : FSEvent) :
  ¬ perm_ok uid e →
  let d := calls cs init in
  key_sources (keys_fsw_callback uid fs e d) ⊆ key_sources d
  ∧ passthrough_keys (keys_fsw_callback uid fs e d) ⊆ passthrough_keys d.
Proof.
  intros Hg d. subst d. unfold keys_fsw_callback. destruct (negb _).
  - rewrite unload_key_sources. split; [apply delete_subseteq| ].
    apply unload_subseteq, reachable_union_inv.
  - destruct (negb _); [ |done].
    destruct (load_ev_key_sources_cases uid fs e (calls cs init))
      as [(? & _)|(_ & -> & -> & _)]; done.
Qed.

Lemma X7_rejected_event_never_widens_witness :
  passthrough_keys (keys_fsw_callback 0 fs_AB ev_world_writable loaded_A)
  ⊆ passthrough_keys loaded_A.
Proof.
  apply (X7_rejected_event_never_widens [CallLoad fs_AB "/k/A"] 0 fs_AB
           ev_world_writable).
  intros [H _]. vm_compute in H. discriminate.
Defined.

(** X8 (what survives an unload). From a state reached by calls, a code
    that is still contained after [unloadPassthrough p] was contained
    before and is listed by a file other than [p]: the codes only [p]
    listed are gone. *)
Theorem X8_unload_survivors (cs : list Call) (p : string) (c : Z) :
  contains (unloadPassthrough p (calls cs init)) c = true →
  contains (calls cs init) c = true
  ∧ ∃ q vec, q ≠ p ∧ key_sources (calls cs init) !! q = Some vec ∧ c ∈ vec.
Proof.
  unfold contains. rewrite !bool_decide_eq_true. intros Hc. split.
  - by apply (unload_subseteq p _ (reachable_union_inv cs)).
  - apply unload_contributed.
    by apply (unload_union_inv p _ (reachable_union_inv cs)).
Qed.

Lemma X8_unload_survivors_witness :
  contains loaded_AB 30 = true
  ∧ ∃ q vec, q ≠ "/k/B"%string ∧ key_sources loaded_AB !! q = Some vec ∧ 30 ∈ vec.
Proof.
  apply (X8_unload_survivors [CallLoad fs_AB "/k/A"; CallLoad fs_AB "/k/B"]
           "/k/B" 30).
  vm_compute. reflexivity.
Defined.

(** ** [initPassthrough] and the older cell loop *)

Lemma initPassthrough_entry (uid : Z) (fs : FileSystem) (files : list FSEvent)
    (d : Passthrough) (p : string) (vec : list Z) :
  key_sources (initPassthrough uid fs files d) !! p = Some vec →
  key_sources d !! p = Some vec
  ∨ ∃ file cells,
      file ∈ files ∧ perm_ok uid file ∧ realpath fs (path file) = Some p
      ∧ getColCells_key_code fs p = inr cells ∧ vec = cell_codes cells.
Proof.
  unfold initPassthrough. revert d.
  induction files as [|f files IH]; intros d; simpl; [by left| ].
  intros H. apply IH in H as [H|(file & cells & Hin & Hrest)].
  - destruct (load_ev_key_sources_cases uid fs f d)
      as [(Hg & Hk & _)|(_ & Hk & _)]; rewrite Hk in H; [ |by left].
    rewrite load_key_sources in H.
    destruct (realpath fs (path f)) as [q| ] eqn:Hr; [ |by left].
    destruct (getColCells_key_code fs q) as [what|cells] eqn:Hc.
    + apply lookup_delete_Some in H as [_ H]. by left.
    + destruct (decide (q = p)) as [->|Hne].
      * rewrite lookup_insert_eq in H. injection H as <-.
        right. exists f, cells. split; [left| ].
        exact (conj Hg (conj Hr (conj Hc eq_refl))).
      * rewrite lookup_insert_ne in H by done. by left.
  - right. exists file, cells. split; [by right|done].
Qed.

(** X9 (start-up loads only what passes the gate). Every entry that
    [initPassthrough] leaves in [key_sources] comes from one of the files
    found in the keys directory that has mode 0644 and the daemon's uid,
    under that file's canonical path, and holds the codes of its cells. *)
Theorem X9_initPassthrough_only_gated (uid : Z) (fs : FileSystem)
    (files : list FSEvent) (p : string) (vec : list Z) :
  key_sources (initPassthrough uid fs files init) !! p = Some vec →
  ∃ file cells,
    file ∈ files ∧ perm_ok uid file ∧ realpath fs (path file) = Some p
    ∧ getColCells_key_code fs p = inr cells ∧ vec = cell_codes cells.
Proof.
  intros H. apply initPassthrough_entry in H as [H|H]; [ |done].
  simpl in H. by rewrite lookup_empty in H.
Qed.

Lemma X9_initPassthrough_only_gated_witness :
  ∃ file cells,
    file ∈ [ev_world_writable; ev_A_0644] ∧ perm_ok 0 file
    ∧ realpath fs_AB (path file) = Some "/k/A"%string
    ∧ getColCells_key_code fs_AB "/k/A" = inr cells ∧ [30] = cell_codes cells.
Proof.
  apply (X9_initPassthrough_only_gated 0 fs_AB [ev_world_writable; ev_A_0644]
           "/k/A" [30]).
  vm_compute. reflexivity.
Defined.

Lemma cell_codes_cons (s : string) (cells : list string) :
  cell_codes (s :: cells)
  = match cell_code s with
    | Some y => y :: cell_codes cells
    | None => cell_codes cells
    end.
Proof. reflexivity. Qed.

Lemma cell_code_StoiOk (s : string) (i : Z) :
  stoi s = StoiOk i → cell_code s = if 0 <=? i then Some i else None.
Proof. intros Hs. unfold cell_code. by rewrite Hs. Qed.

Lemma older_load_cells_stops (l1 : list string) (bad : string)
    (l2 : list string) (keys : gset Z) (acc : list Z) :
  Forall (fun s => ∃ i, stoi s = StoiOk i) l1 →
  stoi bad = InvalidArgument ∨ stoi bad = OutOfRange →
  Older.load_cells (l1 ++ bad :: l2) keys acc
  = (list_to_set (cell_codes l1) ∪ keys, None).
Proof.
  intros Hl1 Hbad. revert keys acc.
  induction Hl1 as [|s l1 [i Hs] _ IH]; intros keys acc.
  - simpl. destruct Hbad as [-> | ->]; f_equal; set_solver.
  - rewrite cell_codes_cons, (cell_code_StoiOk s i Hs). simpl. rewrite Hs.
    destruct (0 <=? i); rewrite IH; [ |done]. f_equal. set_solver.
Qed.

Lemma older_load_cells_clean (cells : list string) (keys : gset Z)
    (acc : list Z) :
  Forall (fun s => ∃ i, stoi s = StoiOk i) cells →
  Older.load_cells cells keys acc
  = (list_to_set (cell_codes cells) ∪ keys, Some (acc ++ cell_codes cells)).
Proof.
  intros Hc. revert keys acc.
  induction Hc as [|s cells [i Hs] _ IH]; intros keys acc.
  - simpl. rewrite app_nil_r. f_equal. set_solver.
  - rewrite cell_codes_cons, (cell_code_StoiOk s i Hs). simpl. rewrite Hs.
    destruct (0 <=? i); rewrite IH; [ |done].
    rewrite <- app_assoc. simpl. f_equal. set_solver.
Qed.

(** X10 (older revision, a cell that is not a number). In the older
    [loadPassthrough], a cell on which [stoi] throws ends the load: the
    codes of the cells before it are in the set, the cells after it are
    not read, and the path gets no entry, so that a later
    [unloadPassthrough] of the path removes nothing. *)
Theorem X10_older_bad_cell_leaks (fs : FileSystem) (rel_path p : string)
    (l1 : list string) (bad : string) (l2 : list string) (d : Passthrough) :
  realpath fs rel_path = Some p →
  getColCells_key_code fs p = inr (l1 ++ bad :: l2) →
  Forall (fun s => ∃ i, stoi s = StoiOk i) l1 →
  stoi bad = InvalidArgument ∨ stoi bad = OutOfRange →
  let d' := Older.loadPassthrough fs rel_path d in
  key_sources d' !! p = None
  ∧ passthrough_keys d'
    = list_to_set (cell_codes l1) ∪ passthrough_keys (unloadPassthrough p d)
  ∧ unloadPassthrough p d' = d'.
Proof.
  intros Hr Hc Hl1 Hbad d'. subst d'. unfold Older.loadPassthrough.
  rewrite Hr, Hc, (older_load_cells_stops _ _ _ _ _ Hl1 Hbad). simpl.
  assert (key_sources (unloadPassthrough p d) !! p = None) as Hn.
  { rewrite unload_key_sources. apply lookup_delete_eq. }
  split; [done| ]. split; [done| ].
  unfold unloadPassthrough at 1. simpl. by rewrite Hn.
Qed.

Lemma X10_older_bad_cell_leaks_witness :
  key_sources (Older.loadPassthrough fs_mixed "/k/M" init) !! "/k/M"%string
  = None.
Proof.
  apply (X10_older_bad_cell_leaks fs_mixed "/k/M" "/k/M" ["30"%string]
           "key" ["-4"; ""; "31"]%string init).
  - reflexivity.
  - reflexivity.
  - repeat constructor. exists 30. reflexivity.
  - left. reflexivity.
Defined.

(** X11 (the two revisions on a clean file). When [stoi] throws on no
    cell, the older [loadPassthrough] and the current one leave the same
    entries, the same set of codes and the same watch list. *)
Theorem X11_older_agrees_on_clean_file (fs : FileSystem) (rel_path p : string)
    (cells : list string) (d : Passthrough) :
  realpath fs rel_path = Some p →
  getColCells_key_code fs p = inr cells →
  Forall (fun s => ∃ i, stoi s = StoiOk i) cells →
  let d1 := Older.loadPassthrough fs rel_path d in
  let d2 := loadPassthrough fs rel_path d in
  key_sources d1 = key_sources d2
  ∧ passthrough_keys d1 = passthrough_keys d2
  ∧ keys_fsw d1 = keys_fsw d2.
Proof.
  intros Hr Hc Hclean d1 d2. subst d1 d2.
  rewrite (load_ok _ _ _ _ _ Hr Hc). unfold Older.loadPassthrough.
  rewrite Hr, Hc, (older_load_cells_clean _ _ _ Hclean). simpl.
  by rewrite unload_key_sources, unload_keys_fsw.
Qed.

Lemma X11_older_agrees_on_clean_file_witness :
  passthrough_keys (Older.loadPassthrough fs_AB "/k/B" loaded_A)
  = passthrough_keys (loadPassthrough fs_AB "/k/B" loaded_A).
Proof.
  apply (X11_older_agrees_on_clean_file fs_AB "/k/B" "/k/B" ["30"; "31"]%string
           loaded_A).
  - reflexivity.
  - reflexivity.
  - repeat constructor; [exists 30|exists 31]; reflexivity.
Defined.

(** ** More on the run loop *)

Lemma erase_first_elem_of (k x : nat) (l : list nat) :
  x ∈ erase_first k l → x ∈ l.
Proof.
  induction l as [|y l IH]; simpl; [done| ].
  destruct (Nat.eqb_spec y k) as [->|Hne].
  - intros. by right.
  - rewrite !elem_of_cons. intros [->|H]; [by left|right; by apply IH].
Qed.

Lemma erase_first_NoDup (k : nat) (l : list nat) :
  NoDup l → NoDup (erase_first k l) ∧ k ∉ erase_first k l.
Proof.
  induction 1 as [|y l Hy Hl IH]; simpl.
  - split; [constructor|apply not_elem_of_nil].
  - destruct (Nat.eqb_spec y k) as [->|Hne]; [done| ].
    destruct IH as [IH1 IH2]. split.
    + constructor; [ |done]. intros H. by apply erase_first_elem_of in H.
    + rewrite elem_of_cons. intros [->|H]; done.
Qed.

Lemma registry_inv_same (st st' : RunState) :
  same_registry st st' → registry_inv st → registry_inv st'.
Proof. intros (Hk & Ha & Hp). unfold registry_inv. by rewrite Hk, Ha, Hp. Qed.

(** What the inner loop leaves: the buckets as they were; on an abort the
    budget was exceeded, the socket is closed and nothing more was
    written; the counter is 0, or one more, or (blocked) unchanged. *)
Lemma recv_loop_facts (rs : list (option KBDAction)) (st : RunState) :
  match recv_loop rs st with
  | Running st' =>
      same_registry st st'
      ∧ (errors st' = 0 ∨ (errors st ≤ MAX_ERRORS ∧ errors st' = errors st + 1))
  | Aborted st' =>
      same_registry st st' ∧ MAX_ERRORS < errors st
      ∧ errors st' = errors st + 1 ∧ closed (kbd_com st') = true
      ∧ written (udev st') = written (udev st)
  | Blocked st' => same_registry st st' ∧ errors st' = errors st
  | Undefined => False
  end.
Proof.
  assert (Herr : ∀ s,
    match on_SocketError s with
    | Running st' =>
        same_registry s st'
        ∧ (errors st' = 0 ∨ (errors s ≤ MAX_ERRORS ∧ errors st' = errors s + 1))
    | Aborted st' =>
        same_registry s st' ∧ MAX_ERRORS < errors s
        ∧ errors st' = errors s + 1 ∧ closed (kbd_com st') = true
        ∧ written (udev st') = written (udev s)
    | Blocked st' => same_registry s st' ∧ errors st' = errors s
    | Undefined => False
    end).
  { intros s. unfold on_SocketError.
    destruct (Z.gtb_spec (errors s) MAX_ERRORS); simpl.
    - repeat split; lia.
    - split; [done| ]. right. lia. }
  revert st. induction rs as [|[a| ] rs IH]; intros st.
  - simpl. done.
  - simpl. destruct (negb (done a =? 0)).
    + split; [done|by left].
    + specialize (IH (set_udev (emit (ev a)) (set_action (fun _ => a) st))).
      destruct (recv_loop rs _); simpl in IH; done.
  - simpl. apply Herr.
Qed.

Lemma handle_key_facts (d : Passthrough) (t : Turn) (st : RunState) :
  match handle_key d t st with
  | Running st' =>
      same_registry st st'
      ∧ (errors st' = 0 ∨ errors st' = errors st
         ∨ (errors st ≤ MAX_ERRORS ∧ errors st' = errors st + 1))
  | Aborted st' =>
      same_registry st st' ∧ MAX_ERRORS < errors st
      ∧ errors st' = errors st + 1 ∧ closed (kbd_com st') = true
      ∧ written (udev st') = written (udev st)
      ∧ contains d (code (ev (action st))) = true
  | Blocked st' => same_registry st st' ∧ errors st' = errors st
  | Undefined => False
  end.
Proof.
  unfold handle_key. destruct (contains d _) eqn:Hc.
  - destruct (send_ok t).
    + pose proof (recv_loop_facts (recvs t)
        (set_kbd_com (fun s => {| sent := sent s ++ [action st]; closed := closed s |}) st))
        as H.
      destruct (recv_loop _ _); simpl in H; [ | |done..].
      * destruct H as [? [?|?]]; auto.
      * destruct H as (? & ? & ? & ? & ?). done.
    + pose proof (recv_loop_facts [None] st) as H. simpl in H.
      destruct (on_SocketError st); [ | |done..].
      * destruct H as [? [?|?]]; auto.
      * destruct H as (? & ? & ? & ? & ?). done.
  - split; [done|auto].
Qed.

(** X12 (passthrough miss). A key read from a grabbed keyboard whose code
    is not in the passthrough set is emitted as it is, once, and flushed;
    nothing is sent to the macro daemon and the error counter is left as
    it was, so that such keys do not break a run of consecutive errors. *)
Theorem X12_passthrough_miss (d : Passthrough) (t : Turn) (st : RunState)
    (idx k : nat) (kb : Keyboard) (e : input_event) :
  polled t = Readable idx (Some e) →
  available_kbds st !! idx = Some k → kbds st !! k = Some kb →
  state kb = LOCKED → contains d (code e) = false →
  ∃ st', iteration d t st = Running st'
         ∧ udev st' = flush (emit e (udev st))
         ∧ kbd_com st' = kbd_com st
         ∧ errors st' = errors st.
Proof.
  intros Hp Ha Hk Hs Hc. unfold iteration. rewrite Hp. simpl.
  rewrite Ha, Hk, Hs. simpl. unfold handle_key. simpl. rewrite Hc.
  eexists. by repeat split.
Qed.

Lemma X12_passthrough_miss_witness :
  ∃ st', iteration loaded_A turn_key31 st_locked = Running st'
         ∧ udev st' = flush (emit key31 (udev st_locked))
         ∧ kbd_com st' = kbd_com st_locked
         ∧ errors st' = errors st_locked.
Proof.
  apply (X12_passthrough_miss loaded_A turn_key31 st_locked 0%nat 0%nat
           {| name := "kbd"; dev_path := "/dev/input/event3"; state := LOCKED |}
           key31).
  - reflexivity.
  - reflexivity.
  - reflexivity.
  - reflexivity.
  - vm_compute. reflexivity.
Defined.

Lemma iteration_errors (d : Passthrough) (t : Turn) (st : RunState) :
  errors_in_budget st →
  match iteration d t st with
  | Running st' | Blocked st' => errors_in_budget st'
  | Aborted st' => errors st' = MAX_ERRORS + 2
  | Undefined => True
  end.
Proof.
  unfold errors_in_budget, MAX_ERRORS. intros Hb. unfold iteration.
  destruct (polled t) as [|idx got]; simpl; [done| ].
  destruct (available_kbds st !! idx) as [k| ]; [ |done].
  destruct got as [e| ]; [ |done]. simpl.
  destruct (kbds st !! k) as [kb| ]; [ |done].
  destruct (is_LOCKED (state kb)); [ |done].
  match goal with |- context [handle_key d t ?s] =>
    pose proof (handle_key_facts d t s) as H;
    destruct (handle_key d t s) end; simpl in H; unfold MAX_ERRORS in H.
  - lia.
  - lia.
  - lia.
  - done.
Qed.

(** X13 (the counter stays small). Over any number of turns, whatever the
    keyboards and the socket do, the error counter of a running daemon
    stays between 0 and 31, and an abort leaves it at 32: the [int] never
    overflows. *)
Theorem X13_errors_bounded (ts : list (Passthrough * Turn)) (st : RunState) :
  errors_in_budget st →
  match run ts st with
  | Running st' | Blocked st' => errors_in_budget st'
  | Aborted st' => errors st' = MAX_ERRORS + 2
  | Undefined => True
  end.
Proof.
  revert st. induction ts as [|[d t] ts IH]; intros st Hb; simpl; [done| ].
  pose proof (iteration_errors d t st Hb) as H.
  destruct (iteration d t st); [by apply IH|done..].
Qed.

Lemma X13_errors_bounded_witness :
  match run (replicate 40 (loaded_A, turn_send_fails)) st_locked with
  | Running st' | Blocked st' => errors_in_budget st'
  | Aborted st' => errors st' = MAX_ERRORS + 2
  | Undefined => True
  end.
Proof.
  apply (X13_errors_bounded (replicate 40 (loaded_A, turn_send_fails)) st_locked).
  vm_compute. split; discriminate.
Defined.

(** X14 (what an abort takes). A turn ends in [abort()] only when a
    passthrough key was read from a grabbed keyboard while the counter
    was already above [MAX_ERRORS]; the socket has then been closed, and
    nothing was written to the virtual device in that turn: the key that
    was read is lost. *)
Theorem X14_abort_only_over_budget (d : Passthrough) (t : Turn)
    (st st' : RunState) :
  iteration d t st = Aborted st' →
  MAX_ERRORS < errors st
  ∧ closed (kbd_com st') = true
  ∧ written (udev st') = written (udev st)
  ∧ ∃ idx k kb e,
      polled t = Readable idx (Some e) ∧ available_kbds st !! idx = Some k
      ∧ kbds st !! k = Some kb ∧ state kb = LOCKED
      ∧ contains d (code e) = true.
Proof.
  unfold iteration. destruct (polled t) as [|idx got]; simpl; [done| ].
  destruct (available_kbds st !! idx) as [k| ] eqn:Ha; [ |done].
  destruct got as [e| ]; [ |done]. simpl.
  destruct (kbds st !! k) as [kb| ] eqn:Hk; [ |done].
  destruct (state kb) eqn:Hs; simpl; [done| |done].
  match goal with |- context [handle_key d t ?s] =>
    pose proof (handle_key_facts d t s) as H;
    destruct (handle_key d t s) end; simpl in H; try done.
  intros [= <-]. destruct H as (_ & ? & _ & ? & ? & ?).
  repeat split; [done..| ]. exists idx, k, kb, e. by rewrite Hs.
Qed.

Lemma X14_abort_only_over_budget_witness :
  MAX_ERRORS < errors (set_errors (fun _ => 31) st_locked).
Proof.
  eapply (X14_abort_only_over_budget loaded_A turn_send_fails
            (set_errors (fun _ => 31) st_locked)).
  vm_compute. reflexivity.
Defined.

Lemma on_KeyboardError_registry_inv (k : nat) (st : RunState) :
  registry_inv st → k ∈ available_kbds st →
  registry_inv (on_KeyboardError k st).
Proof.
  intros (Hnd & Hval & Hdis) Hk. unfold registry_inv. simpl.
  apply NoDup_app in Hnd as (Hav & Hsep & Hpu).
  rewrite Forall_forall in Hval. rewrite Forall_forall in Hdis.
  destruct (erase_first_NoDup k _ Hav) as [He1 He2].
  assert (Hkb : is_Some (kbds st !! k)).
  { apply Hval. rewrite elem_of_app. by left. }
  split; [ |split].
  - apply NoDup_app. split; [done| ]. split.
    + intros x Hx. rewrite elem_of_app, list_elem_of_singleton.
      intros [Hp| ->]; [ |done].
      by apply (Hsep x (erase_first_elem_of _ _ _ Hx)).
    + apply NoDup_app. split; [done| ]. split; [ |apply NoDup_singleton].
      intros x Hx. rewrite list_elem_of_singleton. intros ->.
      by apply (Hsep k).
  - apply Forall_forall. intros x Hx.
    assert (is_Some (kbds st !! x)) as [kb Hkb'].
    { apply Hval. rewrite !elem_of_app in Hx. rewrite elem_of_app.
      destruct Hx as [Hx|[Hx|Hx]].
      - left. by apply erase_first_elem_of in Hx.
      - by right.
      - apply list_elem_of_singleton in Hx as ->. by left. }
    destruct (decide (k = x)) as [->|Hne].
    + rewrite list_lookup_alter_eq, Hkb'. by eexists.
    + rewrite list_lookup_alter_ne by done. by eexists.
  - apply Forall_forall. intros x Hx. apply elem_of_app in Hx as [Hx|Hx].
    + destruct (decide (k = x)) as [->|Hne].
      * exfalso. by apply (Hsep x).
      * rewrite list_lookup_alter_ne by done. by apply Hdis.
    + apply list_elem_of_singleton in Hx as ->.
      rewrite list_lookup_alter_eq. destruct Hkb as [kb ->]. done.
Qed.

(** X15 (a keyboard that fails to read). When the read of a polled
    keyboard throws, the turn ends normally: the keyboard is disabled,
    taken out of [available_kbds] and put in [pulled_kbds]; the other
    keyboards are untouched, nothing is emitted or sent, and the socket
    error counter is not charged. *)
Theorem X15_read_error_pulls_keyboard (d : Passthrough) (t : Turn)
    (st : RunState) (idx k : nat) :
  registry_inv st →
  polled t = Readable idx None →
  available_kbds st !! idx = Some k →
  ∃ st', iteration d t st = Running st'
         ∧ (k ∉ available_kbds st')
         ∧ k ∈ pulled_kbds st'
         ∧ state <$> kbds st' !! k = Some DISABLED
         ∧ (∀ j, j ≠ k → kbds st' !! j = kbds st !! j)
         ∧ udev st' = udev st
         ∧ kbd_com st' = kbd_com st
         ∧ errors st' = errors st.
Proof.
  intros Hinv Hp Ha. unfold iteration. rewrite Hp. simpl. rewrite Ha.
  eexists. split; [done| ]. simpl.
  destruct Hinv as (Hnd & Hval & _).
  apply NoDup_app in Hnd as (Hav & _ & _). rewrite Forall_forall in Hval.
  assert (k ∈ available_kbds st) as Hk by (by eapply list_elem_of_lookup_2).
  split; [by apply erase_first_NoDup| ].
  split; [rewrite elem_of_app, list_elem_of_singleton; by right| ].
  split.
  { rewrite list_lookup_alter_eq.
    destruct (Hval k) as [kb ->]; [ |done]. rewrite elem_of_app. by left. }
  split; [ |done]. intros j Hj. by rewrite list_lookup_alter_ne.
Qed.

Lemma X15_read_error_pulls_keyboard_witness :
  ∃ st', iteration loaded_A turn_read_error st_locked = Running st'
         ∧ (0%nat ∉ available_kbds st')
         ∧ 0%nat ∈ pulled_kbds st'
         ∧ state <$> kbds st' !! 0%nat = Some DISABLED
         ∧ (∀ j, j ≠ 0%nat → kbds st' !! j = kbds st_locked !! j)
         ∧ udev st' = udev st_locked
         ∧ kbd_com st' = kbd_com st_locked
         ∧ errors st' = errors st_locked.
Proof.
  apply (X15_read_error_pulls_keyboard loaded_A turn_read_error st_locked
           0%nat 0%nat).
  - apply (bool_decide_unpack _). vm_compute. exact I.
  - reflexivity.
  - reflexivity.
Defined.

(** X16 (the buckets stay disjoint). Whatever a turn does, it leaves the
    keyboard buckets well formed: no keyboard is in [available_kbds] and
    [pulled_kbds] at once or twice in either, every pointer points into
    [kbds], and every pulled keyboard is disabled. With well-formed
    buckets, the only way to undefined behaviour is an index returned by
    [kbdMultiplex] that lies outside the polled vector. *)
Theorem X16_turn_keeps_buckets (d : Passthrough) (t : Turn) (st : RunState) :
  registry_inv st →
  match iteration d t st with
  | Running st' | Aborted st' | Blocked st' => registry_inv st'
  | Undefined =>
      ∃ idx got, polled t = Readable idx got
                 ∧ length (available_kbds st) ≤ idx
  end%nat.
Proof.
  intros Hinv. unfold iteration.
  destruct (polled t) as [|idx got] eqn:Hp; simpl; [done| ].
  destruct (available_kbds st !! idx) as [k| ] eqn:Ha.
  - assert (k ∈ available_kbds st) as Hk by (by eapply list_elem_of_lookup_2).
    destruct got as [e| ]; [ |by apply on_KeyboardError_registry_inv]. simpl.
    assert (is_Some (kbds st !! k)) as [kb ->].
    { destruct Hinv as (_ & Hval & _). rewrite Forall_forall in Hval.
      apply Hval. rewrite elem_of_app. by left. }
    destruct (is_LOCKED (state kb)); [ |done].
    match goal with |- context [handle_key d t ?s] =>
      pose proof (handle_key_facts d t s) as H;
      destruct (handle_key d t s) end; simpl in H; [ | | |done];
      apply (registry_inv_same st); tauto.
  - exists idx, got. split; [done| ]. by apply lookup_ge_None.
Qed.

Lemma X16_turn_keeps_buckets_witness :
  match iteration loaded_A turn_read_error st_locked with
  | Running st' | Aborted st' | Blocked st' => registry_inv st'
  | Undefined =>
      ∃ idx got, polled turn_read_error = Readable idx got
                 ∧ length (available_kbds st_locked) ≤ idx
  end%nat.
Proof.
  apply (X16_turn_keeps_buckets loaded_A turn_read_error st_locked).
  apply (bool_decide_unpack _). vm_compute. exact I.
Defined.

(** X17 ([updateAvailableKBDs]). Called while no keyboard is pulled, it
    leaves in [available_kbds] exactly the keyboards that are not
    disabled, each once, and the buckets well formed. *)
Theorem X17_updateAvailableKBDs (st : RunState) :
  pulled_kbds st = [] →
  registry_inv (updateAvailableKBDs st)
  ∧ ∀ k, k ∈ available_kbds (updateAvailableKBDs st)
         ↔ ∃ kb, kbds st !! k = Some kb ∧ isDisabled kb = false.
Proof.
  intros Hp.
  assert (Hmem : ∀ k, k ∈ available_kbds (updateAvailableKBDs st)
                      ↔ ∃ kb, kbds st !! k = Some kb ∧ isDisabled kb = false).
  { intros k. simpl. rewrite list_elem_of_filter, elem_of_seq. split.
    - intros [H _]. destruct (kbds st !! k) as [kb| ]; [ |done].
      injection H as H. eauto.
    - intros (kb & Hk & Hd). rewrite Hk. simpl. rewrite Hd. split; [done| ].
      apply lookup_lt_Some in Hk. lia. }
  split; [ |done]. unfold registry_inv. simpl. rewrite Hp, app_nil_r.
  split; [apply NoDup_filter, NoDup_seq| ]. split; [ |constructor].
  apply Forall_forall. intros k Hk. apply Hmem in Hk as (kb & -> & _). by eexists.
Qed.

Lemma X17_updateAvailableKBDs_witness :
  registry_inv (updateAvailableKBDs st_locked)
  ∧ ∀ k, k ∈ available_kbds (updateAvailableKBDs st_locked)
         ↔ ∃ kb, kbds st_locked !! k = Some kb ∧ isDisabled kb = false.
Proof.
  apply (X17_updateAvailableKBDs st_locked). reflexivity.
Defined.

(** ** More on the hot-plug callback *)

Lemma wait_permissions_shape (fuel : nat) (stat_at : nat → option stat)
    (ev_mode input_gid : Z) (n : nat) (wait_time : Z) (r : Waited) :
  wait_time ≤ FSW_MAX_WAIT_PERMISSIONS_US →
  wait_permissions fuel stat_at ev_mode input_gid n wait_time = Some r →
  match r with
  | NotCharDevice => S_ISCHR ev_mode = false
  | GaveUp n' =>
      (n < n')%nat
      ∧ FSW_MAX_WAIT_PERMISSIONS_US
        < wait_time + wait_inc_us * (Z.of_nat n' - Z.of_nat n)
      ∧ wait_time + wait_inc_us * (Z.of_nat n' - Z.of_nat n - 1)
        ≤ FSW_MAX_WAIT_PERMISSIONS_US
  | LoopLeft wait_time' n' =>
      (n < n')%nat
      ∧ wait_time' = wait_time + wait_inc_us * (Z.of_nat n' - Z.of_nat n)
      ∧ wait_time' ≤ FSW_MAX_WAIT_PERMISSIONS_US
      ∧ (stat_at (pred n') = None
         ∨ ∃ sb, stat_at (pred n') = Some sb ∧ st_gid sb = input_gid)
  end.
Proof.
  unfold wait_inc_us. revert n wait_time.
  induction fuel as [|fuel IH]; intros n wait_time Hle; [done| ].
  cbn [wait_permissions].
  destruct (bool_decide (is_Some (stat_at n)) && negb (S_ISCHR ev_mode)) eqn:E1.
  { intros [= <-]. apply andb_true_iff in E1 as [_ E1].
    by apply negb_true_iff in E1. }
  unfold wait_inc_us.
  destruct (Z.gtb_spec (wait_time + 100) FSW_MAX_WAIT_PERMISSIONS_US) as [Hgt|Hle'].
  { intros [= <-]. lia. }
  match goal with |- (if ?b then _ else _) = _ → _ => destruct b eqn:E2 end.
  - intros Hrec. apply IH in Hrec; [ |done].
    destruct r as [ |n'|wt' n']; [done|lia| ].
    destruct Hrec as (? & ? & ? & ?). repeat split; [lia..|done].
  - intros [= <-]. repeat split; [lia..| ]. simpl.
    destruct (stat_at n) as [sb| ]; [ |by left]. right. exists sb. split; [done| ].
    destruct (group_rw_test_dead (st_mode sb)) as [H4 _]. rewrite H4 in E2.
    simpl in E2. apply negb_false_iff in E2. by apply Z.eqb_eq.
Qed.

(** X18 (the permission wait is bounded). For every hot-plug event and
    whatever [stat] answers, the wait ends: because the event is not a
    character device, or after exactly 50001 calls of [stat] (5 s and 100
    microseconds), or earlier with 100 microseconds waited per call, and
    then the last [stat] failed or showed the input group as owner. *)
Theorem X18_wait_bounded (stat_at : nat → option stat) (ev_mode input_gid : Z)
    (n : nat) :
  ∃ r, wait_permissions wait_fuel stat_at ev_mode input_gid n 0 = Some r
       ∧ match r with
         | NotCharDevice => S_ISCHR ev_mode = false
         | GaveUp n' => Z.of_nat n' = Z.of_nat n + 50001
         | LoopLeft wait_time n' =>
             Z.of_nat n < Z.of_nat n' ≤ Z.of_nat n + 50000
             ∧ wait_time = 100 * (Z.of_nat n' - Z.of_nat n)
             ∧ (stat_at (pred n') = None
                ∨ ∃ sb, stat_at (pred n') = Some sb ∧ st_gid sb = input_gid)
         end.
Proof.
  destruct (wait_permissions_total stat_at ev_mode input_gid n) as [r Hr].
  exists r. split; [done| ].
  apply wait_permissions_shape in Hr; [ |unfold FSW_MAX_WAIT_PERMISSIONS_US; lia].
  unfold FSW_MAX_WAIT_PERMISSIONS_US, wait_inc_us in Hr.
  destruct r as [ |n'|wt n']; [done|lia| ].
  destruct Hr as (? & ? & ? & ?). repeat split; [lia..|done].
Qed.

Lemma hotplug_loop_cases (stat_at : nat → option stat)
    (isMe : nat → string → bool) (input_gid : Z) (e : FSEvent)
    (its : list nat) (n : nat) (st : RunState) :
  let st' := (hotplug_loop stat_at isMe input_gid e its n st).1 in
  (udev st' = udev st ∧ kbd_com st' = kbd_com st
   ∧ errors st' = errors st ∧ action st' = action st)
  ∧ (same_registry st st'
     ∨ ∃ kbd, kbd ∈ its ∧ isMe kbd (path e) = true ∧ rebound (path e) kbd st st').
Proof.
  revert n. induction its as [|kbd its IH]; intros n; cbn [hotplug_loop].
  - split; [done|by left].
  - destruct (wait_permissions _ _ _ _ _ _) as [[ |n'|wt n']| ]; cbn [fst];
      try (split; [done|by left]).
    destruct (isMe kbd (path e)) eqn:Hme; cbn [fst].
    + split; [done| ]. right. exists kbd. split; [left|done].
    + destruct (IH n') as [Hf [Hs|(k & Hk & Hm & Hr)]].
      * split; [done|by left].
      * split; [done| ]. right. exists k. split; [by right|done].
Qed.

Lemma rebound_registry_inv (p : string) (kbd : nat) (st st' : RunState) :
  registry_inv st → kbd ∈ pulled_kbds st → rebound p kbd st st' →
  registry_inv st'.
Proof.
  intros (Hnd & Hval & Hdis) Hk (Hkb & Hav & Hpu). unfold registry_inv.
  rewrite Hkb, Hav, Hpu.
  apply NoDup_app in Hnd as (Hnav & Hsep & Hnpu).
  rewrite Forall_forall in Hval. rewrite Forall_forall in Hdis.
  destruct (erase_first_NoDup kbd _ Hnpu) as [He1 He2].
  split; [ |split].
  - apply NoDup_app. split; [ |split; [ |done]].
    + apply NoDup_app. split; [done| ]. split; [ |apply NoDup_singleton].
      intros x Hx. rewrite list_elem_of_singleton. intros ->. by apply (Hsep kbd).
    + intros x Hx Hx'. apply elem_of_app in Hx as [Hx|Hx].
      * apply erase_first_elem_of in Hx'. by apply (Hsep x Hx).
      * apply list_elem_of_singleton in Hx as ->. done.
  - apply Forall_forall. intros x Hx.
    assert (is_Some (kbds st !! x)) as [kb Hkb'].
    { apply Hval. rewrite !elem_of_app in Hx. rewrite elem_of_app.
      destruct Hx as [[Hx|Hx]|Hx].
      - by left.
      - apply list_elem_of_singleton in Hx as ->. by right.
      - right. by apply erase_first_elem_of in Hx. }
    destruct (decide (kbd = x)) as [->|Hne].
    + rewrite list_lookup_alter_eq, Hkb'. by eexists.
    + rewrite list_lookup_alter_ne by done. by eexists.
  - apply Forall_forall. intros x Hx.
    destruct (decide (kbd = x)) as [->|Hne]; [done| ].
    rewrite list_lookup_alter_ne by done.
    apply Hdis. by apply erase_first_elem_of in Hx.
Qed.

(** X19 (the callback keeps to the keyboards). The hot-plug callback
    leaves the virtual device, the socket, the error counter and [action]
    as they are, and it leaves the keyboard buckets well formed. *)
Theorem X19_hotplug_frame (stat_at : nat → option stat)
    (isMe : nat → string → bool) (input_gid : Z) (e : FSEvent) (st : RunState) :
  registry_inv st →
  let st' := (input_fsw_callback stat_at isMe input_gid e st).1 in
  registry_inv st'
  ∧ udev st' = udev st ∧ kbd_com st' = kbd_com st
  ∧ errors st' = errors st ∧ action st' = action st.
Proof.
  intros Hinv st'. subst st'. unfold input_fsw_callback.
  destruct (String.eqb (path e) "/dev/input"); [done| ].
  destruct (hotplug_loop_cases stat_at isMe input_gid e (pulled_kbds st) 0 st)
    as [Hf [Hs|(kbd & Hk & _ & Hr)]].
  - split; [by apply (registry_inv_same st)|done].
  - split; [by apply (rebound_registry_inv (path e) kbd st)|done].
Qed.

Lemma X19_hotplug_frame_witness :
  let st' := (input_fsw_callback stat_root_input_0600 (fun _ _ => true)
                input_gid_ex ev_event7 st_pulled).1 in
  registry_inv st'
  ∧ udev st' = udev st_pulled ∧ kbd_com st' = kbd_com st_pulled
  ∧ errors st' = errors st_pulled ∧ action st' = action st_pulled.
Proof.
  apply (X19_hotplug_frame stat_root_input_0600 (fun _ _ => true) input_gid_ex
           ev_event7 st_pulled).
  apply (bool_decide_unpack _). vm_compute. exact I.
Defined.


Lemma wait_left_at_once (stat_at : nat → option stat) (ev_mode input_gid : Z)
    (n : nat) :
  (S_ISCHR ev_mode = true
   ∧ ∃ sb, stat_at n = Some sb ∧ st_gid sb = input_gid)
  ∨ stat_at n = None →
  wait_permissions wait_fuel stat_at ev_mode input_gid n 0
  = Some (LoopLeft wait_inc_us (S n)).
Proof.
  assert (∃ fuel, wait_fuel = S fuel) as [fuel ->].
  { exists (Z.to_nat 50000). unfold wait_fuel.
    change (FSW_MAX_WAIT_PERMISSIONS_US / wait_inc_us + 1) with (50000 + 1).
    rewrite Z2Nat.inj_add by lia. change (Z.to_nat 1) with 1%nat. lia. }
  intros [[Hchr Hst]| Hst].
  - apply wait_left_on_first_stat; [done|by right].
  - cbn [wait_permissions]. by rewrite Hst.
Qed.



(** X22 (a path that is not a character device). For an event whose own
    [stat] buffer is not that of a character device, with a keyboard
    pulled: when the first [stat] of the callback succeeds, the callback
    returns at once and asks no keyboard; when it fails, the test is
    passed over and the first pulled keyboard is asked [isMe]. *)
Theorem X22_not_a_character_device (stat_at : nat → option stat)
    (isMe : nat → string → bool) (input_gid : Z) (e : FSEvent)
    (st : RunState) (kbd : nat) (rest : list nat) :
  S_ISCHR (st_mode (stbuf e)) = false →
  path e ≠ "/dev/input"%string →
  pulled_kbds st = kbd :: rest →
  (is_Some (stat_at 0%nat) →
   input_fsw_callback stat_at isMe input_gid e st = (st, [StepNotCharDevice]))
  ∧ (stat_at 0%nat = None →
     ∃ steps, (input_fsw_callback stat_at isMe input_gid e st).2
              = StepWaited kbd wait_inc_us
                :: StepIsMe kbd (isMe kbd (path e)) :: steps).
Proof.
  intros Hchr Hne Hpu. unfold input_fsw_callback.
  destruct (String.eqb_spec (path e) "/dev/input") as [?|_]; [done| ].
  rewrite Hpu. cbn [hotplug_loop]. split.
  - intros Hs.
    assert (∃ fuel, wait_fuel = S fuel) as [fuel ->].
    { exists (Z.to_nat 50000). unfold wait_fuel.
      change (FSW_MAX_WAIT_PERMISSIONS_US / wait_inc_us + 1) with (50000 + 1).
      rewrite Z2Nat.inj_add by lia. change (Z.to_nat 1) with 1%nat. lia. }
    cbn [wait_permissions]. rewrite bool_decide_eq_true_2 by done.
    by rewrite Hchr.
  - intros Hs. rewrite (wait_left_at_once _ _ _ _ (or_intror Hs)).
    destruct (isMe kbd (path e)); cbn [snd]; eauto.
Qed.

Lemma X22_not_a_character_device_witness :
  (is_Some (stat_root_input_0600 0%nat) →
   input_fsw_callback stat_root_input_0600 (fun _ _ => true) input_gid_ex
     {| path := "/dev/input/by-id"; mask := IN_CREATE;
        stbuf := {| st_mode := 16877; st_uid := 0; st_gid := 0 |};
        added := false |} st_pulled
   = (st_pulled, [StepNotCharDevice]))
  ∧ (stat_root_input_0600 0%nat = None →
     ∃ steps, (input_fsw_callback stat_root_input_0600 (fun _ _ => true)
                 input_gid_ex
                 {| path := "/dev/input/by-id"; mask := IN_CREATE;
                    stbuf := {| st_mode := 16877; st_uid := 0; st_gid := 0 |};
                    added := false |} st_pulled).2
              = StepWaited 0 wait_inc_us :: StepIsMe 0 true :: steps).
Proof.
  apply (X22_not_a_character_device stat_root_input_0600 (fun _ _ => true)
           input_gid_ex
           {| path := "/dev/input/by-id"; mask := IN_CREATE;
              stbuf := {| st_mode := 16877; st_uid := 0; st_gid := 0 |};
              added := false |} st_pulled 0%nat []).
  - reflexivity.
  - vm_compute. discriminate.
  - reflexivity.
Defined.

(** ** Instances of the two fall-through lemmas *)

(** X23, an instance of [fallthrough_on_first_failure]: key 30 from the
    grabbed keyboard, [send] fails, budget at 0. *)
Lemma fallthrough_on_first_failure_witness :
  ∃ st', iteration loaded_A turn_send_fails st_locked = Running st'
         ∧ errors st' = errors st_locked + 1
         ∧ udev st' = flush (emit key30 (udev st_locked)).
Proof.
  apply (fallthrough_on_first_failure loaded_A turn_send_fails st_locked
           0%nat 0%nat
           {| name := "kbd"; dev_path := "/dev/input/event3"; state := LOCKED |}
           key30).
  - reflexivity.
  - reflexivity.
  - reflexivity.
  - reflexivity.
  - vm_compute. reflexivity.
  - vm_compute. discriminate.
  - left. reflexivity.
Defined.

(** X24, an instance of [fallthrough_after_replies]: key 30 from the
    grabbed keyboard, one reply (key 31), then [recv] fails. *)
Lemma fallthrough_after_replies_witness :
  ∃ st', iteration loaded_A turn_fail_after_reply st_locked = Running st'
         ∧ errors st' = errors st_locked + 1
         ∧ udev st'
           = flush (emit key31 (emit_all [key31] (udev st_locked))).
Proof.
  apply (fallthrough_after_replies loaded_A turn_fail_after_reply st_locked
           0%nat 0%nat
           {| name := "kbd"; dev_path := "/dev/input/event3"; state := LOCKED |}
           key30 {| ev := key31; done := 0 |} [] []).
  - reflexivity.
  - reflexivity.
  - reflexivity.
  - reflexivity.
  - vm_compute. reflexivity.
  - vm_compute. discriminate.
  - reflexivity.
  - reflexivity.
  - repeat constructor.
Defined.
